(** * saido: the configuration loader ([config/config.go])

    A shallow embedding of the inventory resolver of the dashboard:
    [parseConnection], [parseConfig], [GetDashboardInfoConfig] and
    [Connection.ToDriver], followed by the properties the specification
    states about them.

    Conventions of the embedding.

    - A decoded YAML document is a [value].  A Go
      [map[interface{}]interface{}] is the list of its entries; its keys are
      strings, which is what every key the loader looks up or prints is, so
      that [fmt.Sprintf("%s", k)] and [fmt.Sprintf("%v", k)] are [k] itself.
      A Go map has no order of its own and [range] enumerates it in an order
      the runtime picks; the list gives the entries in the order the run at
      hand enumerates them, so one document is represented by every
      reordering of its mappings.  A nil map reads like the empty map.
    - [*Connection] is an index into a heap of [Connection] records that the
      loader threads through its calls; [&c] allocates a fresh cell.
    - [log.Infof], [log.Errorf] and [log.Debugf] append an entry to the log;
      [log.Fatal] and [log.Fatalf] end the process ([Fatal]); a failed type
      assertion or a nil dereference is a run-time panic ([Panic]).
    - [mapstructure.Decode], the [%v] verb of [fmt] and [inspector.Valid] are
      collaborators outside this file: the loader is parametrised by them. *)

From Stdlib Require Import ZArith String List Lia Permutation DecimalString.
From stdpp Require Import base list strings gmap.

Local Open Scope string_scope.
Local Open Scope list_scope.
Local Open Scope Z_scope.

(** ** Decoded YAML *)

#[local] Set Warnings "-register-all".

Inductive value : Type :=
| VNil
| VStr (s : string)
| VInt (n : Z)
| VBool (b : bool)
| VList (l : list value)
| VMap (entries : list (string * value)).

(** [m[key]] with its [ok] flag. *)
Fixpoint map_get (key : string) (m : list (string * value)) : option value :=
  match m with
  | [] => None
  | (k, v) :: rest => if String.eqb k key then Some v else map_get key rest
  end.

(** [v.(map[interface{}]interface{})] with its [ok] flag. *)
Definition as_map (v : value) : option (list (string * value)) :=
  match v with VMap m => Some m | _ => None end.

(** The [ok] flag alone. *)
Definition is_map (v : value) : bool :=
  match v with VMap _ => true | _ => false end.

(** The map a failed assertion leaves behind is the nil map. *)
Definition map_or_nil (v : value) : list (string * value) :=
  match v with VMap m => m | _ => [] end.

Definition is_nil (v : value) : bool :=
  match v with VNil => true | _ => false end.

(** ** The structs *)

Definition ptr := nat.

Module Connection.
Record t : Type := mk {
  Type_ : string;
  Username : string;
  Password : string;
  PrivateKeyPath : string;
  PrivateKeyPassPhrase : string;
  Port : Z;
  Host : string
}.

(** [Connection{}] *)
Definition zero : t := mk "" "" "" "" "" 0 "".

Definition set_Port (p : Z) (c : t) : t :=
  mk (Type_ c) (Username c) (Password c) (PrivateKeyPath c)
     (PrivateKeyPassPhrase c) p (Host c).

Definition set_Host (h : string) (c : t) : t :=
  mk (Type_ c) (Username c) (Password c) (PrivateKeyPath c)
     (PrivateKeyPassPhrase c) (Port c) h.
End Connection.

Module Host.
Record t : Type := mk {
  Address : string;
  Alias : string;
  Connection : ptr
}.
End Host.

Module driver.
Record SSH_t : Type := mkSSH {
  User : string;
  Host : string;
  Port : Z;
  KeyFile : string;
  KeyPass : string;
  Password : string;
  CheckKnownHosts : bool
}.

Inductive Driver : Type :=
| SSH (d : SSH_t)
| Local.
End driver.

Record DashboardInfo : Type := mkDashboardInfo {
  Hosts : list Host.t;
  Metrics : gmap string string;
  Title : string;
  PollInterval : Z
}.

Module Config.
Record t : Type := mk {
  Hosts : list (string * value);
  Metrics : list (string * value);
  Title : string;
  PollInterval : Z
}.
End Config.

(** ** Effects: heap, log, exit *)

Inductive log_entry : Type :=
| Infof_loading (name host : string) (conn : option Connection.t)
    (* "Loading config for %s and host: %s with Connection: %+v" *)
| Errorf_connection (name : string)
    (* "Failed to parse connection for %s" *)
| Errorf_children (name : string)
    (* "Faled to parse children of %s" *)
| Debugf_host (address : string) (conn : option Connection.t).
    (* "%s: %v" *)

Record state : Type := mkState {
  heap : list Connection.t;
  log : list log_entry
}.

Definition state0 : state := mkState [] [].

Inductive outcome (A : Type) : Type :=
| Ok (a : A) (s : state)
| Fatal (msg : string) (s : state)
| Panic (msg : string) (s : state).
Arguments Ok {A} a s.
Arguments Fatal {A} msg s.
Arguments Panic {A} msg s.

Definition M (A : Type) : Type := state -> outcome A.

Definition ret {A} (a : A) : M A := fun s => Ok a s.

Definition bind {A B} (m : M A) (k : A -> M B) : M B :=
  fun s =>
    match m s with
    | Ok a s' => k a s'
    | Fatal msg s' => Fatal msg s'
    | Panic msg s' => Panic msg s'
    end.

Notation "'do' x <- m ; k" := (bind m (fun x => k))
  (at level 10, x name, m at level 100, k at level 200,
   format "'[v' 'do'  x  <-  m ; '/' k ']'").
Notation "m ;; k" := (bind m (fun _ => k))
  (at level 100, k at level 200, right associativity).

Definition logf (e : log_entry) : M unit :=
  fun s => Ok tt (mkState (heap s) (log s ++ [e])).

Definition fatal {A} (msg : string) : M A := fun s => Fatal msg s.

Definition panic {A} (msg : string) : M A := fun s => Panic msg s.

Definition when (b : bool) (m : M unit) : M unit := if b then m else ret tt.

(** [&c] *)
Definition alloc (c : Connection.t) : M ptr :=
  fun s => Ok (length (heap s)) (mkState (heap s ++ [c]) (log s)).

(** What [%+v] prints of a [*Connection]: the record it points to. *)
Definition peek (p : ptr) : M (option Connection.t) :=
  fun s => Ok (heap s !! p) s.

(** [p.Host = h] *)
Definition store_Host (p : ptr) (h : string) : M unit :=
  fun s =>
    match heap s !! p with
    | Some c => Ok tt (mkState (<[p := Connection.set_Host h c]> (heap s)) (log s))
    | None => Panic "invalid memory address or nil pointer dereference" s
    end.

(** ** Collaborators *)

Class Collaborators : Type := {
  (** [mapstructure.Decode(conn, &c)] on a zero [c]; its error is dropped. *)
  mapstructure_Decode : list (string * value) -> Connection.t;
  (** [fmt.Sprintf("%v", v)] *)
  fmt_Sprintf_v : value -> string;
  fmt_Sprintf_v_string : forall s, fmt_Sprintf_v (VStr s) = s;
  (** [inspector.Valid(metric)] *)
  inspector_Valid : string -> bool
}.

(** ** [ToDriver] *)

Definition ToDriver (conn : Connection.t) : driver.Driver :=
  if String.eqb (Connection.Type_ conn) "ssh" then
    driver.SSH (driver.mkSSH
      (Connection.Username conn)
      (Connection.Host conn)
      (Connection.Port conn)
      (Connection.PrivateKeyPath conn)
      (Connection.PrivateKeyPassPhrase conn)
      (Connection.Password conn)
      false)
  else driver.Local.

Section Loader.
Context `{Collaborators}.

(** ** [parseConnection] *)

Definition default_port (c : Connection.t) : Connection.t :=
  if String.eqb (Connection.Type_ c) "ssh" && (Connection.Port c =? 0)
  then Connection.set_Port 22 c
  else c.

Definition both_logins (c : Connection.t) : bool :=
  negb (String.eqb (Connection.Password c) "") &&
  negb (String.eqb (Connection.PrivateKeyPath c) "").

Definition both_logins_msg : string :=
  "Cannot specify both password login and private key login on same connection".

Definition parseConnection (conn : list (string * value)) : M ptr :=
  let c := mapstructure_Decode conn in
  let c := default_port c in
  if both_logins c then fatal both_logins_msg
  else alloc c.

(** ** [parseConfig] *)

(** Lines 141-148: the connection override of a node. *)
Definition node_connection (name : string) (group : list (string * value))
    (currentConnection : ptr) : M ptr :=
  match map_get "connection" group with
  | Some conn =>
      when (negb (is_map conn))
           (logf (Errorf_connection name)) ;;
      parseConnection (map_or_nil conn)
  | None => ret currentConnection
  end.

Definition alias_of (group : list (string * value)) : M string :=
  match map_get "alias" group with
  | Some (VStr a) => ret a
  | Some _ => panic "interface conversion: interface {} is not string"
  | None => ret ""
  end.

(** Lines 168-179: a node without children is a host. *)
Definition leaf_host (host : string) (group : list (string * value))
    (currentConn : ptr) : M (list Host.t) :=
  store_Host currentConn host ;;
  do alias <- alias_of group ;
  ret [Host.mk host alias currentConn].

Definition prologue (name host : string) (group : list (string * value))
    (currentConnection : ptr) : M ptr :=
  do shown <- peek currentConnection ;
  logf (Infof_loading name host shown) ;;
  node_connection name group currentConnection.

Definition children_msg (name : string) : string :=
  "Failed to parse children of " +:+ name.

(** The [for k, v := range parsedChildren] loop, over the body [child]. *)
Definition range_children (child : string -> value -> M (list Host.t))
  : list (string * value) -> M (list Host.t) :=
  fix loop (entries : list (string * value)) : M (list Host.t) :=
    match entries with
    | [] => ret []
    | (k, v) :: rest =>
        do hs <- child k v ;
        do hs' <- loop rest ;
        ret (hs ++ hs')
    end.

(** [group["children"]], handing the entry found to [found]. *)
Definition with_children {R} (found : value -> R) (missing : R)
  : list (string * value) -> R :=
  fix find (m : list (string * value)) : R :=
    match m with
    | [] => missing
    | (k, v) :: rest => if String.eqb k "children" then found v else find rest
    end.

(** [parseConfig] by structural recursion on the node as the loop hands it
    over: the value [v] of a child, whose group is [v] asserted to be a map
    and the nil map otherwise.  [parseConfig_eq] below gives the body in the
    shape of the source, over [map_get] and [parseChild]. *)
Fixpoint parseNode (v : value) (name host : string) (currentConnection : ptr)
    {struct v} : M (list Host.t) :=
  match v with
  | VMap group =>
      do currentConn <- prologue name host group currentConnection ;
      with_children
        (fun children =>
           match children with
           | VMap parsedChildren =>
               range_children
                 (fun k v =>
                    when (negb (is_map v) && negb (is_nil v))
                         (logf (Errorf_children name)) ;;
                    parseNode v (name +:+ ":" +:+ k) k currentConn)
                 parsedChildren
           | _ => fatal (children_msg name)
           end)
        (leaf_host host group currentConn)
        group
  | _ =>
      do currentConn <- prologue name host [] currentConnection ;
      leaf_host host [] currentConn
  end.

Definition parseConfig (name host : string) (group : list (string * value))
    (currentConnection : ptr) : M (list Host.t) :=
  parseNode (VMap group) name host currentConnection.

(** The body of the loop at lines 158-165, as the source writes it. *)
Definition parseChild (name : string) (currentConn : ptr) (k : string)
    (v : value) : M (list Host.t) :=
  when (negb (is_map v) && negb (is_nil v))
       (logf (Errorf_children name)) ;;
  parseConfig (name +:+ ":" +:+ k) k (map_or_nil v) currentConn.

(** ** [GetDashboardInfoConfig] *)

Definition invalid_metric_msg (metric : string) : string :=
  "Found invalid metric " +:+ metric.

Definition poll_interval_msg : string :=
  "Cannot set poll interval below 5 seconds".

(** Lines 105-112. *)
Fixpoint range_metrics (entries : list (string * value))
    (metrics : gmap string string) : M (gmap string string) :=
  match entries with
  | [] => ret metrics
  | (metric, customCommand) :: rest =>
      if inspector_Valid metric
      then range_metrics rest (<[metric := fmt_Sprintf_v customCommand]> metrics)
      else fatal (invalid_metric_msg metric)
  end.

(** Lines 114-116. *)
Fixpoint range_debug (hosts : list Host.t) : M unit :=
  match hosts with
  | [] => ret tt
  | host :: rest =>
      do shown <- peek (Host.Connection host) ;
      logf (Debugf_host (Host.Address host) shown) ;;
      range_debug rest
  end.

Definition GetDashboardInfoConfig (config : Config.t) : M DashboardInfo :=
  let title :=
    if String.eqb (Config.Title config) "" then "Saido" else Config.Title config in
  do root <- alloc Connection.zero ;
  do hosts <- parseConfig "root" "" (Config.Hosts config) root ;
  do metrics <- range_metrics (Config.Metrics config) ∅ ;
  range_debug hosts ;;
  when (Config.PollInterval config <? 5) (fatal poll_interval_msg) ;;
  ret (mkDashboardInfo hosts metrics title (Config.PollInterval config)).

(** ** The tree a configuration denotes

    Pure functions of the document, against which the loader is specified. *)

(** The connection a node declares, as [parseConnection] resolves it. *)
Definition declared (group : list (string * value)) : option Connection.t :=
  match map_get "connection" group with
  | Some conn => Some (default_port (mapstructure_Decode (map_or_nil conn)))
  | None => None
  end.

Definition conn_ok (group : list (string * value)) : bool :=
  match declared group with
  | Some c => negb (both_logins c)
  | None => true
  end.

Definition alias_ok (group : list (string * value)) : bool :=
  match map_get "alias" group with
  | Some (VStr _) | None => true
  | Some _ => false
  end.

Definition alias_or_empty (group : list (string * value)) : string :=
  match map_get "alias" group with
  | Some (VStr a) => a
  | _ => ""
  end.

(** A tree is well formed when nothing in it stops the loader: no node
    declares a connection with both logins, every [children] entry is a
    mapping, and the [alias] of a host is a string. *)
Fixpoint well_formed (v : value) : bool :=
  match v with
  | VMap group =>
      conn_ok group &&
      with_children
        (fun children =>
           match children with
           | VMap cs => forallb (fun '(_, c) => well_formed c) cs
           | _ => false
           end)
        (alias_ok group)
        group
  | _ => true
  end.

(** The number of leaves: nodes without a [children] entry. *)
Fixpoint leaf_count (v : value) : nat :=
  match v with
  | VMap group =>
      with_children
        (fun children =>
           match children with
           | VMap cs => list_sum (List.map (fun '(_, c) => leaf_count c) cs)
           | _ => 0%nat
           end)
        1%nat
        group
  | _ => 1%nat
  end.

(** The leaves in traversal order, each with its key and its alias. *)
Fixpoint leaf_hosts (v : value) (host : string) : list (string * string) :=
  match v with
  | VMap group =>
      with_children
        (fun children =>
           match children with
           | VMap cs => List.flat_map (fun '(k, c) => leaf_hosts c k) cs
           | _ => []
           end)
        [(host, alias_or_empty group)]
        group
  | _ => [(host, "")]
  end.

(** The leaves in traversal order, each with the connections declared on the
    path from it up to the root (the leaf first, [above] last). *)
Fixpoint ancestry (v : value) (host : string)
    (above : list (option Connection.t))
  : list (string * list (option Connection.t)) :=
  match v with
  | VMap group =>
      with_children
        (fun children =>
           match children with
           | VMap cs =>
               List.flat_map (fun '(k, c) => ancestry c k (declared group :: above)) cs
           | _ => []
           end)
        [(host, declared group :: above)]
        group
  | _ => [(host, None :: above)]
  end.

(** The nearest declared connection on a path, or the root default. *)
Fixpoint nearest (root : Connection.t) (path : list (option Connection.t))
  : Connection.t :=
  match path with
  | [] => root
  | Some c :: _ => c
  | None :: up => nearest root up
  end.

End Loader.

(** What a connection says apart from the host it is bound to. *)
Definition settings (c : Connection.t) : Connection.t :=
  Connection.set_Host "" c.

(** What the inventory shows of a host in a final state: its address and
    the settings of the connection it points to. *)
Definition resolved (s : state) (h : Host.t)
  : string * option Connection.t :=
  (Host.Address h, settings <$> (heap s !! Host.Connection h)).

(** ** A concrete set of collaborators, for running the loader

    [plain_Decode] reads the six tagged fields from keys spelled as the tags
    and typed as the fields, and leaves the others zero; [plain_Sprintf_v]
    prints nil, strings, booleans and integers as [fmt] does and composite
    values entry by entry in the order given; [sample_Valid] is a registry of
    three metric names. *)

Definition get_string (key : string) (m : list (string * value)) : string :=
  match map_get key m with Some (VStr s) => s | _ => "" end.

Definition get_int32 (key : string) (m : list (string * value)) : Z :=
  match map_get key m with
  | Some (VInt n) => (n + 2 ^ 31) mod 2 ^ 32 - 2 ^ 31
  | _ => 0
  end.

Definition plain_Decode (conn : list (string * value)) : Connection.t :=
  Connection.mk
    (get_string "type" conn)
    (get_string "username" conn)
    (get_string "password" conn)
    (get_string "private_key_path" conn)
    (get_string "private_key_passphrase" conn)
    (get_int32 "port" conn)
    "".

Definition decimal (n : Z) : string :=
  NilZero.string_of_int (Z.to_int n).

Fixpoint plain_Sprintf_v (v : value) : string :=
  match v with
  | VNil => "<nil>"
  | VStr s => s
  | VInt n => decimal n
  | VBool b => if b then "true" else "false"
  | VList l =>
      "[" +:+ String.concat " " (List.map plain_Sprintf_v l) +:+ "]"
  | VMap m =>
      "map[" +:+
      String.concat " "
        (List.map (fun kv => fst kv +:+ ":" +:+ plain_Sprintf_v (snd kv)) m)
      +:+ "]"
  end.

Definition sample_Valid (metric : string) : bool :=
  bool_decide (metric ∈ ["memory"; "disk"; "uptime"]).

#[local] Instance plain : Collaborators := {|
  mapstructure_Decode := plain_Decode;
  fmt_Sprintf_v := plain_Sprintf_v;
  fmt_Sprintf_v_string := fun s => eq_refl;
  inspector_Valid := sample_Valid
|}.

(** ** Sample documents *)

(** The example of the specification: a local root, [web] over ssh on port
    2222, [db] and [cache] inheriting from the root. *)
Definition ex_tree : list (string * value) :=
  [("connection", VMap [("type", VStr "local")]);
   ("children", VMap [
      ("web", VMap [("connection", VMap [("type", VStr "ssh"); ("port", VInt 2222)])]);
      ("db", VMap []);
      ("cache", VNil)])].

(** [ex_tree] with [db] moved to ssh. *)
Definition ex_tree_db_ssh : list (string * value) :=
  [("connection", VMap [("type", VStr "local")]);
   ("children", VMap [
      ("web", VMap [("connection", VMap [("type", VStr "ssh"); ("port", VInt 2222)])]);
      ("db", VMap [("connection", VMap [("type", VStr "ssh")])]);
      ("cache", VNil)])].

(** Two hosts under the root, in the two orders [range] may take them. *)
Definition two_hosts : list (string * value) :=
  [("children", VMap [("a", VNil); ("b", VNil)])].

Definition two_hosts_swapped : list (string * value) :=
  [("children", VMap [("b", VNil); ("a", VNil)])].

(** The state in which [GetDashboardInfoConfig] calls [parseConfig]: the
    root connection [&Connection{}] is the only cell. *)
Definition state_root : state := mkState [Connection.zero] [].

Definition ssh_no_port : list (string * value) :=
  [("type", VStr "ssh"); ("username", VStr "admin")].

Definition two_logins : list (string * value) :=
  [("type", VStr "ssh"); ("password", VStr "secret");
   ("private_key_path", VStr "/home/admin/.ssh/id_rsa")].

(** [poll-interval: 3] over two hosts and a valid metric. *)
Definition low_interval : Config.t :=
  Config.mk two_hosts [("memory", VNil)] "" 3.

(** [poll-interval: 3] and a root connection with both logins. *)
Definition low_interval_two_logins : Config.t :=
  Config.mk [("connection", VMap two_logins)] [] "" 3.

Definition good_config : Config.t :=
  Config.mk two_hosts [("memory", VNil); ("disk", VStr "df -h")] "fleet" 10.

Definition unknown_metric : Config.t :=
  Config.mk two_hosts [("memory", VNil); ("cpu", VNil)] "fleet" 10.


(** The heap [h'] keeps every cell of [h], with its settings. *)
Definition heap_ext (h h' : list Connection.t) : Prop :=
  forall (p : ptr) c, h !! p = Some c ->
    exists c', h' !! p = Some c' /\ settings c' = settings c.

(** In state [s], the host [h] is the leaf [leaf] and its connection has the
    settings of the nearest connection declared on the leaf's path. *)
Definition bound_to (s : state) (root : Connection.t) (h : Host.t)
    (leaf : string * list (option Connection.t)) : Prop :=
  Host.Address h = fst leaf /\
  settings <$> (heap s !! Host.Connection h) =
    Some (settings (nearest root (snd leaf))).

(** What resolving a well-formed node [v] under the connection [cur] comes
    to: the loader returns, keeps the heap it found, logs its entry first,
    emits the leaves of [v] in order, and binds each to the nearest declared
    connection. *)
Definition resolves `{Collaborators} (v : value) : Prop :=
  forall name host (cur : ptr) s root above,
    well_formed v = true ->
    settings <$> (heap s !! cur) = Some (settings (nearest root above)) ->
    exists hosts s',
      parseNode v name host cur s = Ok hosts s' /\
      heap_ext (heap s) (heap s') /\
      (exists l, log s' = log s ++ Infof_loading name host (heap s !! cur) :: l) /\
      List.map (fun h => (Host.Address h, Host.Alias h)) hosts = leaf_hosts v host /\
      Forall2 (bound_to s' root) hosts (ancestry v host above).

(** ** One document, enumerated in another order

    [reorder v v']: the trees [v] and [v'] are one document, and differ only
    in the order in which the entries of their [children] mappings are
    enumerated. *)
Inductive reorder : value -> value -> Prop :=
| reorder_same v : reorder v v
| reorder_node g g' : reorder_fields g g' -> reorder (VMap g) (VMap g')

with reorder_fields : list (string * value) -> list (string * value) -> Prop :=
| reorder_fields_nil : reorder_fields [] []
| reorder_fields_children cs cs' rest :
    reorder_children cs cs' ->
    reorder_fields (("children", VMap cs) :: rest)
                   (("children", VMap cs') :: rest)
| reorder_fields_other k v rest rest' :
    k <> "children" ->
    reorder_fields rest rest' ->
    reorder_fields ((k, v) :: rest) ((k, v) :: rest')

with reorder_children : list (string * value) -> list (string * value) -> Prop :=
| reorder_children_nil : reorder_children [] []
| reorder_children_cons k c c' cs cs' :
    reorder c c' ->
    reorder_children cs cs' ->
    reorder_children ((k, c) :: cs) ((k, c') :: cs')
| reorder_children_swap x y cs :
    reorder_children (x :: y :: cs) (y :: x :: cs)
| reorder_children_trans cs1 cs2 cs3 :
    reorder_children cs1 cs2 ->
    reorder_children cs2 cs3 ->
    reorder_children cs1 cs3.

Scheme reorder_min := Minimality for reorder Sort Prop
  with reorder_fields_min := Minimality for reorder_fields Sort Prop
  with reorder_children_min := Minimality for reorder_children Sort Prop.

Combined Scheme reorder_mutind
  from reorder_min, reorder_fields_min, reorder_children_min.

(** A measure for induction over documents. *)
Fixpoint size (v : value) : nat :=
  match v with
  | VList l => S (list_sum (List.map size l))
  | VMap m => S (list_sum (List.map (fun '(_, c) => size c) m))
  | _ => 1%nat
  end.

(** ** The rest of [config]: [Contains], [GetAllHostAddresses] *)

Fixpoint Contains (hostList : list string) (host : Host.t) : bool :=
  match hostList with
  | [] => false
  | compare :: rest =>
      if String.eqb (Host.Address host) compare then true
      else Contains rest host
  end.

Definition GetAllHostAddresses (dashboardInfo : DashboardInfo) : list string :=
  fold_left (fun addresses host => addresses ++ [Host.Address host])
            (Hosts dashboardInfo) [].

(** ** Accounting for the heap *)

(** The number of nodes that declare a connection. *)
Fixpoint declared_count (v : value) : nat :=
  match v with
  | VMap group =>
      match map_get "connection" group with Some _ => 1 | None => 0 end +
      with_children
        (fun children =>
           match children with
           | VMap cs => list_sum (List.map (fun '(_, c) => declared_count c) cs)
           | _ => 0
           end)
        0
        group
  | _ => 0
  end%nat.

(** Where a run from [s] to [s'] under the connection [cur] puts the host
    [h] of the leaf [leaf]: on [cur] or on a cell of its own making; and if
    the leaf declares a connection, on a fresh cell that holds that
    connection bound to the address of the host. *)
Definition placed (s s' : state) (cur : ptr) (h : Host.t)
    (leaf : string * list (option Connection.t)) : Prop :=
  Host.Address h = fst leaf /\
  (Host.Connection h = cur \/
   (length (heap s) <= Host.Connection h < length (heap s'))%nat) /\
  match snd leaf with
  | Some c :: _ =>
      (length (heap s) <= Host.Connection h)%nat /\
      heap s' !! Host.Connection h =
        Some (Connection.set_Host (Host.Address h) c)
  | _ => True
  end.

(** No host shares the cell of a leaf that declares its connection. *)
Definition exclusive (hosts : list Host.t)
    (leaves : list (string * list (option Connection.t))) : Prop :=
  forall (i j : nat) h h' a c path,
    i <> j ->
    hosts !! i = Some h ->
    leaves !! i = Some (a, Some c :: path) ->
    hosts !! j = Some h' ->
    Host.Connection h <> Host.Connection h'.

(** What a run of [parseNode] that returns does to the heap. *)
Definition tracks `{Collaborators} (v : value) : Prop :=
  forall name host (cur : ptr) s hosts s' above,
    parseNode v name host cur s = Ok hosts s' ->
    (cur < length (heap s))%nat ->
    length (heap s') = (length (heap s) + declared_count v)%nat /\
    (forall p : ptr, (p < length (heap s))%nat -> p <> cur ->
       heap s' !! p = heap s !! p) /\
    Forall2 (placed s s' cur) hosts (ancestry v host above) /\
    exclusive hosts (ancestry v host above).

(** The ways in which [parseConfig] ends the process. *)
Definition alias_panic_msg : string :=
  "interface conversion: interface {} is not string".

Definition expected_end {A : Type} (o : outcome A) : Prop :=
  match o with
  | Ok _ _ => True
  | Fatal msg _ => msg = both_logins_msg \/ exists name, msg = children_msg name
  | Panic msg _ => msg = alias_panic_msg
  end.

(** ** What a run shows of its hosts *)

(** A host with the whole connection it points to. *)
Definition whole (s : state) (h : Host.t) : string * option Connection.t :=
  (Host.Address h, heap s !! Host.Connection h).

(** A host apart from the cell it is bound to: its address, its alias and
    the settings of its connection. *)
Definition shown_host (s : state) (h : Host.t)
  : string * string * option Connection.t :=
  (Host.Address h, Host.Alias h, settings <$> (heap s !! Host.Connection h)).

(** The lines that lines 114-116 log for the hosts. *)
Definition debug_lines (s : state) (hosts : list Host.t) : list log_entry :=
  List.map
    (fun h => Debugf_host (Host.Address h) (heap s !! Host.Connection h))
    hosts.

(** [two_hosts] with a connection declared at [b]. *)
Definition two_hosts_b_ssh : list (string * value) :=
  [("children",
    VMap [("a", VNil);
          ("b", VMap [("connection", VMap [("type", VStr "ssh")])])])].

(** The leaves in traversal order, each with its key, its alias and the
    connections declared on its path. *)
Fixpoint inventory `{Collaborators} (v : value) (host : string)
    (above : list (option Connection.t))
  : list (string * string * list (option Connection.t)) :=
  match v with
  | VMap group =>
      with_children
        (fun children =>
           match children with
           | VMap cs =>
               List.flat_map
                 (fun '(k, c) => inventory c k (declared group :: above)) cs
           | _ => []
           end)
        [(host, alias_or_empty group, declared group :: above)]
        group
  | _ => [(host, "", None :: above)]
  end.

(** * The dashboard ([charts])

    The functions of the dashboard that compute: the rotations behind the
    rolling title and the line chart.  A slice is the list of its elements,
    an [int] is a [Z] within 64 bits, a [string] converted by [[]rune(text)]
    is the list of its runes, and [None] is the run-time panic of a slice
    bound out of range or of a division by zero. *)

Module charts.

Definition rune : Type := Z.

(** Go's [int]: 64-bit two's complement. *)
Definition wrap64 (z : Z) : Z := (z + 2 ^ 63) mod 2 ^ 64 - 2 ^ 63.

(** [append(inputs[step:], inputs[:step]...)], the body of [rotateRunes] and
    of [rotateFloats]: [inputs[step:]] needs [0 <= step <= len(inputs)]. *)
Definition rotate {A : Type} (inputs : list A) (step : Z) : option (list A) :=
  if (0 <=? step) && (step <=? Z.of_nat (length inputs))
  then Some (drop (Z.to_nat step) inputs ++ take (Z.to_nat step) inputs)
  else None.

Definition rotateRunes (inputs : list rune) (step : Z) : option (list rune) :=
  rotate inputs step.

Definition rotateFloats {float64 : Type} (inputs : list float64) (step : Z)
  : option (list float64) :=
  rotate inputs step.

(** [textState]; the loop appends a space [capacity] times, none if
    [capacity] is negative, and [%] is Go's remainder ([Z.rem]). *)
Definition textState (text : list rune) (capacity step : Z)
  : option (list rune) :=
  if capacity =? 0 then Some []
  else
    let state := repeat 32 (Z.to_nat capacity) ++ text in
    if Z.of_nat (length state) =? 0 then None
    else
      let step := Z.rem step (Z.of_nat (length state)) in
      rotateRunes state step.

(** The steps by which one tick of the line chart of [newSines] rotates its
    two series: [step1 = (step1 + 1) % len(inputs)] and
    [step2 := (step1 + secondDist.get()) % len(inputs)]. *)
Definition sines_steps (len step1 dist : Z) : Z * Z :=
  let step1 := Z.rem (wrap64 (step1 + 1)) len in
  let step2 := Z.rem (wrap64 (step1 + dist)) len in
  (step1, step2).

End charts.

(** * Properties *)

(** ** Induction over the nodes of a tree *)

Lemma map_get_cons key k v rest :
  map_get key ((k, v) :: rest) =
  if String.eqb k key then Some v else map_get key rest.
Proof. reflexivity. Qed.

Lemma map_get_In key m v : map_get key m = Some v -> In (key, v) m.
Proof.
  induction m as [|[k c] m IH]; simpl; [discriminate|].
  destruct (String.eqb k key) eqn:E.
  - apply String.eqb_eq in E. intros [= ->]. subst. now left.
  - intros Hg. right. auto.
Qed.

Lemma In_size k c (m : list (string * value)) :
  In (k, c) m -> (size c < size (VMap m))%nat.
Proof.
  simpl. induction m as [|[k' c'] m IH]; simpl; [tauto|].
  intros [[= -> ->]|Hin]; [lia|]. specialize (IH Hin). lia.
Qed.

(** To prove [Q] of a node, assume it of the children of the node. *)
Lemma node_ind (Q : value -> Prop) :
  (forall v,
      (forall cs,
          map_get "children" (map_or_nil v) = Some (VMap cs) ->
          forall k c, In (k, c) cs -> Q c) ->
      Q v) ->
  forall v, Q v.
Proof.
  intros step v.
  remember (size v) as n eqn:Hn.
  revert v Hn. induction n as [n IH] using lt_wf_ind. intros v ->.
  apply step. intros cs Hget k c Hin.
  apply (IH (size c)); [|reflexivity].
  destruct v; try discriminate. simpl in Hget.
  apply map_get_In, In_size in Hget. apply In_size in Hin. lia.
Qed.

Lemma with_children_get {R} (found : value -> R) (missing : R) group :
  with_children found missing group =
  match map_get "children" group with
  | Some children => found children
  | None => missing
  end.
Proof.
  induction group as [|[k v] group IH]; simpl; [reflexivity|].
  destruct (String.eqb k "children"); auto.
Qed.

Section LoaderFacts.
Context `{Collaborators}.

(** ** The monad *)

Lemma bind_Ok {A B} (m : M A) (k : A -> M B) s a s1 :
  m s = Ok a s1 -> bind m k s = k a s1.
Proof. unfold bind. now intros ->. Qed.

Lemma bind_Fatal {A B} (m : M A) (k : A -> M B) s msg s1 :
  m s = Fatal msg s1 -> bind m k s = Fatal msg s1.
Proof. unfold bind. now intros ->. Qed.

Lemma bind_Ok_inv {A B} (m : M A) (k : A -> M B) s b s2 :
  bind m k s = Ok b s2 -> exists a s1, m s = Ok a s1 /\ k a s1 = Ok b s2.
Proof. unfold bind. destruct (m s); [eauto|discriminate..]. Qed.

(** ** [parseConfig], as the source writes it *)

Lemma range_children_ext f g cs s :
  (forall k v s, f k v s = g k v s) ->
  range_children f cs s = range_children g cs s.
Proof.
  intros Hfg. revert s. induction cs as [|[k v] cs IH]; intros s; simpl; [reflexivity|].
  unfold bind. rewrite Hfg. destruct (g k v s); [|reflexivity..].
  now rewrite IH.
Qed.

Lemma parseNode_eq v name host cur :
  parseNode v name host cur = parseConfig name host (map_or_nil v) cur.
Proof. destruct v; reflexivity. Qed.

Lemma parseConfig_eq name host group cur s :
  parseConfig name host group cur s =
  (do currentConn <- prologue name host group cur ;
   match map_get "children" group with
   | Some children =>
       match as_map children with
       | Some parsedChildren =>
           range_children (parseChild name currentConn) parsedChildren
       | None => fatal (children_msg name)
       end
   | None => leaf_host host group currentConn
   end) s.
Proof.
  unfold parseConfig. simpl. unfold bind.
  destruct (prologue name host group cur s) as [cc s1| |]; [|reflexivity..].
  rewrite with_children_get.
  destruct (map_get "children" group) as [[]|]; simpl; try reflexivity.
  apply range_children_ext. intros k v s'. unfold parseChild.
  now rewrite parseNode_eq.
Qed.

(** ** The tree functions, unfolded at a node *)

Lemma well_formed_eq v :
  well_formed v =
  conn_ok (map_or_nil v) &&
  match map_get "children" (map_or_nil v) with
  | Some (VMap cs) => forallb (fun '(_, c) => well_formed c) cs
  | Some _ => false
  | None => alias_ok (map_or_nil v)
  end.
Proof.
  destruct v; try reflexivity. simpl. rewrite with_children_get.
  destruct (map_get "children" entries) as [[]|]; reflexivity.
Qed.

Lemma leaf_count_eq v :
  leaf_count v =
  match map_get "children" (map_or_nil v) with
  | Some (VMap cs) => list_sum (List.map (fun '(_, c) => leaf_count c) cs)
  | Some _ => 0%nat
  | None => 1%nat
  end.
Proof.
  destruct v; try reflexivity. simpl. rewrite with_children_get.
  destruct (map_get "children" entries) as [[]|]; reflexivity.
Qed.

Lemma leaf_hosts_eq v host :
  leaf_hosts v host =
  match map_get "children" (map_or_nil v) with
  | Some (VMap cs) => List.flat_map (fun '(k, c) => leaf_hosts c k) cs
  | Some _ => []
  | None => [(host, alias_or_empty (map_or_nil v))]
  end.
Proof.
  destruct v; try reflexivity. simpl. rewrite with_children_get.
  destruct (map_get "children" entries) as [[]|]; reflexivity.
Qed.

Lemma ancestry_eq v host above :
  ancestry v host above =
  match map_get "children" (map_or_nil v) with
  | Some (VMap cs) =>
      List.flat_map
        (fun '(k, c) => ancestry c k (declared (map_or_nil v) :: above)) cs
  | Some _ => []
  | None => [(host, declared (map_or_nil v) :: above)]
  end.
Proof.
  destruct v; try reflexivity. simpl. rewrite with_children_get.
  destruct (map_get "children" entries) as [[]|]; reflexivity.
Qed.

Lemma leaf_hosts_length v : forall host,
  length (leaf_hosts v host) = leaf_count v.
Proof.
  induction v as [v IH] using node_ind. intros host.
  rewrite leaf_hosts_eq, leaf_count_eq.
  destruct (map_get "children" (map_or_nil v)) as [[| | | | |cs]|];
    try reflexivity.
  specialize (IH cs eq_refl).
  induction cs as [|[k c] cs IHcs]; simpl; [reflexivity|].
  rewrite length_app, (IH k c) by now left.
  f_equal. apply IHcs. intros k' c' Hin. apply (IH k' c'). now right.
Qed.

(** ** Heaps *)

Lemma heap_ext_refl h : heap_ext h h.
Proof. intros p c Hp. eauto. Qed.

Lemma heap_ext_trans h1 h2 h3 :
  heap_ext h1 h2 -> heap_ext h2 h3 -> heap_ext h1 h3.
Proof.
  intros H12 H23 p c Hp.
  destruct (H12 p c Hp) as (c2 & Hp2 & E2).
  destruct (H23 p c2 Hp2) as (c3 & Hp3 & E3).
  exists c3. split; [assumption|congruence].
Qed.

Lemma heap_ext_alloc h c : heap_ext h (h ++ [c]).
Proof.
  intros p c0 Hp. exists c0. split; [|reflexivity].
  now apply lookup_app_l_Some.
Qed.

Lemma heap_ext_store h (p : ptr) c x :
  h !! p = Some c -> heap_ext h (<[p := Connection.set_Host x c]> h).
Proof.
  intros Hp q c0 Hq. destruct (decide (p = q)) as [->|Hne].
  - exists (Connection.set_Host x c). split.
    + apply list_lookup_insert_eq. eapply lookup_lt_Some; eassumption.
    + rewrite Hp in Hq. injection Hq as <-. reflexivity.
  - exists c0. split; [|reflexivity]. now rewrite list_lookup_insert_ne.
Qed.

Lemma settings_ext h h' (p : ptr) x :
  heap_ext h h' ->
  settings <$> (h !! p) = Some x -> settings <$> (h' !! p) = Some x.
Proof.
  intros Hext Hp. destruct (h !! p) as [c|] eqn:E; [|discriminate].
  destruct (Hext p c E) as (c' & -> & Hc'). simpl in *. congruence.
Qed.

Lemma bound_to_ext s s' root h leaf :
  heap_ext (heap s) (heap s') -> bound_to s root h leaf -> bound_to s' root h leaf.
Proof.
  intros Hext [Ha Hc]. split; [assumption|]. eapply settings_ext; eassumption.
Qed.

(** ** The steps of [parseConfig] on a well-formed node *)

Lemma parseConnection_ok conn s :
  both_logins (default_port (mapstructure_Decode conn)) = false ->
  parseConnection conn s =
  Ok (length (heap s))
     (mkState (heap s ++ [default_port (mapstructure_Decode conn)]) (log s)).
Proof. unfold parseConnection. now intros ->. Qed.

Lemma prologue_ok name host group cur s x :
  conn_ok group = true ->
  settings <$> (heap s !! cur) = Some x ->
  exists cc s1,
    prologue name host group cur s = Ok cc s1 /\
    heap_ext (heap s) (heap s1) /\
    (exists l, log s1 = log s ++ Infof_loading name host (heap s !! cur) :: l) /\
    settings <$> (heap s1 !! cc) =
      Some (match declared group with Some c => settings c | None => x end).
Proof.
  unfold conn_ok, declared, prologue, node_connection. intros Hok Hcur.
  destruct (map_get "connection" group) as [conn|].
  - apply negb_true_iff in Hok.
    set (s0 := mkState (heap s) (log s ++ [Infof_loading name host (heap s !! cur)])).
    assert (Hstep : forall s1 l,
      heap s1 = heap s ->
      log s1 = log s ++ Infof_loading name host (heap s !! cur) :: l ->
      exists cc s2, parseConnection (map_or_nil conn) s1 = Ok cc s2 /\
        heap_ext (heap s) (heap s2) /\
        (exists l, log s2 = log s ++ Infof_loading name host (heap s !! cur) :: l) /\
        settings <$> (heap s2 !! cc) =
          Some (settings (default_port (mapstructure_Decode (map_or_nil conn))))).
    { intros s1 l Hs1 Hl1. rewrite parseConnection_ok by assumption.
      do 2 eexists. split; [reflexivity|]. simpl. rewrite Hs1.
      split; [|split].
      - apply heap_ext_alloc.
      - eauto.
      - rewrite lookup_app_r by lia. now rewrite Nat.sub_diag. }
    unfold bind, peek, logf, when. simpl.
    destruct (negb (is_map conn)); simpl.
    + eapply Hstep; [reflexivity|]. simpl. rewrite <- app_assoc. reflexivity.
    + eapply Hstep; reflexivity.
  - unfold bind, peek, logf, ret. simpl. do 2 eexists.
    split; [reflexivity|]. split; [apply heap_ext_refl|].
    split; [|assumption]. simpl. eauto.
Qed.

Lemma leaf_host_ok host group cc s x :
  alias_ok group = true ->
  settings <$> (heap s !! cc) = Some x ->
  exists s1,
    leaf_host host group cc s =
      Ok [Host.mk host (alias_or_empty group) cc] s1 /\
    heap_ext (heap s) (heap s1) /\
    log s1 = log s /\
    Connection.Host <$> (heap s1 !! cc) = Some host.
Proof.
  unfold alias_ok, alias_or_empty, leaf_host, alias_of, store_Host.
  intros Hal Hcc. destruct (heap s !! cc) as [c|] eqn:E; [|discriminate].
  unfold bind. rewrite E.
  exists (mkState (<[cc := Connection.set_Host host c]> (heap s)) (log s)).
  split; [|split; [|split]].
  - destruct (map_get "alias" group) as [[]|]; try discriminate; reflexivity.
  - simpl. now apply heap_ext_store.
  - reflexivity.
  - simpl. rewrite list_lookup_insert_eq; [reflexivity|].
    eapply lookup_lt_Some; eassumption.
Qed.

Lemma parseChild_eq name cc k c s :
  exists s0,
    heap s0 = heap s /\
    (exists l, log s0 = log s ++ l) /\
    parseChild name cc k c s = parseNode c (name +:+ ":" +:+ k) k cc s0.
Proof.
  unfold parseChild, when, bind, logf, ret. rewrite parseNode_eq.
  destruct (negb (is_map c) && negb (is_nil c));
    eexists; (split; [|split; [|reflexivity]]); simpl; eauto.
  exists []. now rewrite app_nil_r.
Qed.

Lemma range_children_ok name cc root path cs :
  (forall k c, In (k, c) cs -> resolves c) ->
  forallb (fun '(_, c) => well_formed c) cs = true ->
  forall s,
    settings <$> (heap s !! cc) = Some (settings (nearest root path)) ->
    exists hosts s',
      range_children (parseChild name cc) cs s = Ok hosts s' /\
      heap_ext (heap s) (heap s') /\
      (exists l, log s' = log s ++ l) /\
      List.map (fun h => (Host.Address h, Host.Alias h)) hosts =
        List.flat_map (fun '(k, c) => leaf_hosts c k) cs /\
      Forall2 (bound_to s' root) hosts
        (List.flat_map (fun '(k, c) => ancestry c k path) cs).
Proof.
  induction cs as [|[k c] cs IHcs]; intros IH Hwf s Hcc.
  - exists [], s. simpl. repeat split; [apply heap_ext_refl| |constructor].
    exists []. now rewrite app_nil_r.
  - simpl in Hwf. apply andb_true_iff in Hwf as [Hc Hcs].
    destruct (parseChild_eq name cc k c s) as (s0 & Hs0 & [l0 Hl0] & Hstep).
    destruct (IH k c (or_introl eq_refl) (name +:+ ":" +:+ k) k cc s0 root path Hc)
      as (hs1 & s1 & Hrun1 & Hext1 & [l1 Hl1] & Hleaves1 & Hbound1).
    { now rewrite Hs0. }
    rewrite Hs0 in Hext1.
    destruct (IHcs (fun k' c' Hin => IH k' c' (or_intror Hin)) Hcs s1)
      as (hs2 & s2 & Hrun2 & Hext2 & [l2 Hl2] & Hleaves2 & Hbound2).
    { eapply settings_ext; eassumption. }
    exists (hs1 ++ hs2), s2. split; [|split; [|split; [|split]]].
    + simpl. unfold bind at 1. rewrite Hstep, Hrun1.
      unfold bind at 1. now rewrite Hrun2.
    + eapply heap_ext_trans; eassumption.
    + rewrite Hl2, Hl1, Hl0, <- !app_assoc. eauto.
    + simpl. rewrite List.map_app. now f_equal.
    + simpl. apply Forall2_app; [|assumption].
      eapply Forall2_impl; [eassumption|].
      intros h leaf. now apply bound_to_ext.
Qed.

Lemma parseNode_ok v : resolves v.
Proof.
  induction v as [v IH] using node_ind.
  intros name host cur s root above Hwf Hcur.
  rewrite parseNode_eq, parseConfig_eq.
  rewrite well_formed_eq in Hwf. apply andb_true_iff in Hwf as [Hconn Hkids].
  rewrite leaf_hosts_eq, ancestry_eq.
  destruct (prologue_ok name host _ cur s _ Hconn Hcur)
    as (cc & s1 & Hpro & Hext1 & [l1 Hl1] & Hcc).
  assert (Hcc' : settings <$> (heap s1 !! cc) =
            Some (settings (nearest root (declared (map_or_nil v) :: above))))
    by (rewrite Hcc; simpl; now destruct (declared (map_or_nil v))).
  clear Hcc. rewrite (bind_Ok _ _ _ _ _ Hpro).
  destruct (map_get "children" (map_or_nil v)) as [[| | | | |cs]|];
    try discriminate.
  - destruct (range_children_ok name cc root _ cs (IH cs eq_refl) Hkids s1 Hcc')
      as (hosts & s2 & Hrun & Hext2 & [l2 Hl2] & Hleaves & Hbound).
    exists hosts, s2. simpl. repeat split; try assumption.
    + eapply heap_ext_trans; eassumption.
    + rewrite Hl2, Hl1, <- app_assoc. simpl. eauto.
  - destruct (leaf_host_ok host _ cc s1 _ Hkids Hcc')
      as (s2 & Hrun & Hext2 & Hl2 & _).
    eexists _, s2. split; [eassumption|]. split; [|split; [|split]].
    + eapply heap_ext_trans; eassumption.
    + rewrite Hl2, Hl1. eauto.
    + reflexivity.
    + constructor; [|constructor]. split; [reflexivity|]. simpl.
      eapply settings_ext; eassumption.
Qed.

Lemma ancestry_length v : forall host above,
  length (ancestry v host above) = leaf_count v.
Proof.
  induction v as [v IH] using node_ind. intros host above.
  rewrite ancestry_eq, leaf_count_eq.
  destruct (map_get "children" (map_or_nil v)) as [[| | | | |cs]|];
    try reflexivity.
  specialize (IH cs eq_refl).
  induction cs as [|[k c] cs IHcs]; simpl; [reflexivity|].
  rewrite length_app, (IH k c) by now left.
  f_equal. apply IHcs. intros k' c' Hin. apply (IH k' c'). now right.
Qed.

Lemma bound_to_resolved s root hosts leaves :
  Forall2 (bound_to s root) hosts leaves ->
  List.map (resolved s) hosts =
  List.map (fun '(a, path) => (a, Some (settings (nearest root path)))) leaves.
Proof.
  induction 1 as [|h [a path] hosts leaves [Ha Hc] _ IH]; simpl; [reflexivity|].
  f_equal; [|assumption]. unfold resolved. simpl in *. now rewrite Ha, Hc.
Qed.

Lemma parseConfig_ok name host group (cur : ptr) s root :
  well_formed (VMap group) = true ->
  heap s !! cur = Some root ->
  exists hosts s',
    parseConfig name host group cur s = Ok hosts s' /\
    heap_ext (heap s) (heap s') /\
    (exists l, log s' = log s ++ Infof_loading name host (Some root) :: l) /\
    List.map (fun h => (Host.Address h, Host.Alias h)) hosts =
      leaf_hosts (VMap group) host /\
    List.map (resolved s') hosts =
      List.map (fun '(a, path) => (a, Some (settings (nearest root path))))
        (ancestry (VMap group) host []).
Proof.
  intros Hwf Hcur.
  destruct (parseNode_ok (VMap group) name host cur s root [] Hwf)
    as (hosts & s' & Hrun & Hext & Hlog & Hleaves & Hbound).
  { now rewrite Hcur. }
  rewrite Hcur in Hlog.
  exists hosts, s'. repeat split; try assumption.
  now apply bound_to_resolved.
Qed.

(** ** The inventory *)

(** C1: on a well-formed tree [parseConfig] returns, and its hosts are the
    leaves of the tree in order, one host per node without a [children] entry
    and none for a node with one; the number of hosts is the number of
    leaves. *)
Theorem parseConfig_one_host_per_leaf name host group (cur : ptr) s :
  well_formed (VMap group) = true ->
  (cur < length (heap s))%nat ->
  exists hosts s',
    parseConfig name host group cur s = Ok hosts s' /\
    List.map (fun h => (Host.Address h, Host.Alias h)) hosts =
      leaf_hosts (VMap group) host /\
    length hosts = leaf_count (VMap group).
Proof.
  intros Hwf Hcur. apply lookup_lt_is_Some in Hcur as [root Hroot].
  destruct (parseConfig_ok name host group cur s root Hwf Hroot)
    as (hosts & s' & Hrun & _ & _ & Hleaves & _).
  exists hosts, s'. repeat split; try assumption.
  rewrite <- (leaf_hosts_length (VMap group) host), <- Hleaves.
  now rewrite length_map.
Qed.


(** ** Connections *)

(** C6: when [parseConnection] returns, the connection it allocates is the
    decoded one with port 22 if its type is ssh and its port 0, and with the
    decoded port itself if that is not 0. *)
Theorem parseConnection_port conn s :
  both_logins (mapstructure_Decode conn) = false ->
  exists c',
    parseConnection conn s =
      Ok (length (heap s)) (mkState (heap s ++ [c']) (log s)) /\
    (Connection.Type_ (mapstructure_Decode conn) = "ssh" ->
     Connection.Port (mapstructure_Decode conn) = 0 ->
     Connection.Port c' = 22) /\
    (Connection.Port (mapstructure_Decode conn) <> 0 ->
     c' = mapstructure_Decode conn).
Proof.
  intros Hlogins. exists (default_port (mapstructure_Decode conn)).
  split; [|split].
  - apply parseConnection_ok. unfold default_port.
    now destruct (_ && _).
  - intros Hty Hport. unfold default_port. now rewrite Hty, Hport.
  - intros Hport. unfold default_port.
    apply Z.eqb_neq in Hport. rewrite Hport. now rewrite andb_false_r.
Qed.

(** C7: [parseConnection] ends the process with the fatal error exactly
    when the decoded password and private-key path are both non-empty,
    whatever the other fields; otherwise it returns. *)
Theorem parseConnection_both_logins conn s :
  (Connection.Password (mapstructure_Decode conn) <> "" /\
   Connection.PrivateKeyPath (mapstructure_Decode conn) <> "" ->
   parseConnection conn s = Fatal both_logins_msg s) /\
  (Connection.Password (mapstructure_Decode conn) = "" \/
   Connection.PrivateKeyPath (mapstructure_Decode conn) = "" ->
   exists p s', parseConnection conn s = Ok p s').
Proof.
  unfold parseConnection.
  assert (Hsame : both_logins (default_port (mapstructure_Decode conn)) =
                  both_logins (mapstructure_Decode conn))
    by (unfold default_port; now destruct (_ && _)).
  rewrite Hsame. unfold both_logins. split.
  - intros [Hpw Hkey].
    apply String.eqb_neq in Hpw, Hkey. now rewrite Hpw, Hkey.
  - intros [Hpw|Hkey].
    + rewrite Hpw. simpl. unfold alloc. eauto.
    + rewrite Hkey. simpl. rewrite andb_false_r. unfold alloc. eauto.
Qed.

(** ** Enumeration order *)

Lemma prologue_Ok_conn name host group cur s cc s1 :
  prologue name host group cur s = Ok cc s1 -> conn_ok group = true.
Proof.
  unfold prologue, node_connection, conn_ok, declared. intros Hrun.
  apply bind_Ok_inv in Hrun as (? & ? & _ & Hrun).
  apply bind_Ok_inv in Hrun as (? & ? & _ & Hrun).
  destruct (map_get "connection" group) as [conn|]; [|reflexivity].
  apply bind_Ok_inv in Hrun as (? & ? & _ & Hrun).
  unfold parseConnection in Hrun.
  destruct (both_logins _); [discriminate|reflexivity].
Qed.

Lemma leaf_host_Ok_alias host group cc s hosts s1 :
  leaf_host host group cc s = Ok hosts s1 -> alias_ok group = true.
Proof.
  unfold leaf_host, alias_of, alias_ok. intros Hrun.
  apply bind_Ok_inv in Hrun as (? & ? & _ & Hrun).
  apply bind_Ok_inv in Hrun as (? & ? & Hal & _).
  destruct (map_get "alias" group) as [[]|]; try discriminate; reflexivity.
Qed.

Lemma range_children_Ok_wf name cc cs :
  (forall k c, In (k, c) cs ->
     forall name host cur s hosts s',
       parseNode c name host cur s = Ok hosts s' -> well_formed c = true) ->
  forall s hosts s',
    range_children (parseChild name cc) cs s = Ok hosts s' ->
    forallb (fun '(_, c) => well_formed c) cs = true.
Proof.
  induction cs as [|[k c] cs IHcs]; intros IH s hosts s' Hrun; [reflexivity|].
  simpl in Hrun |- *.
  apply bind_Ok_inv in Hrun as (hs1 & s1 & Hchild & Hrun).
  apply bind_Ok_inv in Hrun as (hs2 & s2 & Hrest & _).
  destruct (parseChild_eq name cc k c s) as (s0 & _ & _ & Hstep).
  rewrite Hstep in Hchild.
  rewrite (IH k c (or_introl eq_refl) _ _ _ _ _ _ Hchild). simpl.
  apply (IHcs (fun k' c' Hin => IH k' c' (or_intror Hin)) _ _ _ Hrest).
Qed.

(** Only a well-formed node resolves. *)
Lemma parseNode_Ok_wf v : forall name host cur s hosts s',
  parseNode v name host cur s = Ok hosts s' -> well_formed v = true.
Proof.
  induction v as [v IH] using node_ind. intros name host cur s hosts s' Hrun.
  rewrite parseNode_eq, parseConfig_eq in Hrun.
  apply bind_Ok_inv in Hrun as (cc & s1 & Hpro & Hrun).
  rewrite well_formed_eq, (prologue_Ok_conn _ _ _ _ _ _ _ Hpro). simpl.
  destruct (map_get "children" (map_or_nil v)) as [[| | | | |cs]|];
    try discriminate.
  - simpl in Hrun. eapply range_children_Ok_wf; [|eassumption].
    apply (IH cs eq_refl).
  - eapply leaf_host_Ok_alias; eassumption.
Qed.

Lemma declared_same_fields g g' :
  (forall key, key <> "children" -> map_get key g = map_get key g') ->
  declared g = declared g' /\ alias_ok g = alias_ok g' /\
  alias_or_empty g = alias_or_empty g'.
Proof.
  intros Hsame. unfold declared, alias_ok, alias_or_empty.
  rewrite (Hsame "connection"), (Hsame "alias") by discriminate. auto.
Qed.

(** Reordering keeps well-formedness and permutes the leaves. *)
Lemma reorder_leaves :
  (forall v v', reorder v v' ->
     well_formed v = well_formed v' /\
     forall host, Permutation (leaf_hosts v host) (leaf_hosts v' host)) /\
  (forall g g', reorder_fields g g' ->
     (forall key, key <> "children" -> map_get key g = map_get key g') /\
     (map_get "children" g = map_get "children" g' \/
      exists cs cs',
        map_get "children" g = Some (VMap cs) /\
        map_get "children" g' = Some (VMap cs') /\
        forallb (fun '(_, c) => well_formed c) cs =
          forallb (fun '(_, c) => well_formed c) cs' /\
        Permutation (List.flat_map (fun '(k, c) => leaf_hosts c k) cs)
                    (List.flat_map (fun '(k, c) => leaf_hosts c k) cs'))) /\
  (forall cs cs', reorder_children cs cs' ->
     forallb (fun '(_, c) => well_formed c) cs =
       forallb (fun '(_, c) => well_formed c) cs' /\
     Permutation (List.flat_map (fun '(k, c) => leaf_hosts c k) cs)
                 (List.flat_map (fun '(k, c) => leaf_hosts c k) cs')).
Proof.
  apply reorder_mutind.
  - intros v. split; reflexivity.
  - intros g g' _ [Hsame Hkids].
    destruct (declared_same_fields g g' Hsame) as (Hd & Ha & Hae).
    split.
    + rewrite (well_formed_eq (VMap g)), (well_formed_eq (VMap g')). simpl.
      unfold conn_ok. rewrite Hd, Ha.
      destruct Hkids as [->|(cs & cs' & -> & -> & -> & _)]; reflexivity.
    + intros host.
      rewrite (leaf_hosts_eq (VMap g)), (leaf_hosts_eq (VMap g')). simpl.
      rewrite Hae.
      destruct Hkids as [->|(cs & cs' & -> & -> & _ & Hperm)];
        [reflexivity|assumption].
  - split; [reflexivity|]. now left.
  - intros cs cs' rest _ [Hwf Hperm]. split.
    + intros key Hkey. rewrite !map_get_cons.
      destruct (String.eqb "children" key) eqn:E; [|reflexivity].
      apply String.eqb_eq in E. congruence.
    + right. exists cs, cs'. rewrite !map_get_cons, String.eqb_refl. auto.
  - intros k v rest rest' Hk _ [Hsame Hkids].
    apply String.eqb_neq in Hk. split.
    + intros key Hkey. rewrite !map_get_cons. destruct (String.eqb k key); auto.
    + rewrite !map_get_cons. now rewrite Hk.
  - split; reflexivity.
  - intros k c c' cs cs' _ [Hwf Hperm] _ [Hwfs Hperms]. simpl. split.
    + now rewrite Hwf, Hwfs.
    + apply Permutation_app; auto.
  - intros [kx x] [ky y] cs. simpl. split.
    + rewrite !andb_assoc. f_equal. apply andb_comm.
    + rewrite !app_assoc. apply Permutation_app_tail, Permutation_app_comm.
  - intros cs1 cs2 cs3 _ [Hwf12 Hp12] _ [Hwf23 Hp23]. split.
    + congruence.
    + eapply Permutation_trans; eassumption.
Qed.

(** ** Loading the dashboard *)

Lemma range_metrics_valid entries : forall acc s,
  (forall m cmd, In (m, cmd) entries -> inspector_Valid m = true) ->
  exists metrics, range_metrics entries acc s = Ok metrics s.
Proof.
  induction entries as [|[m0 c0] entries IH]; intros acc s Hvalid; simpl.
  - unfold ret. eauto.
  - rewrite (Hvalid m0 c0) by now left.
    apply IH. intros m cmd Hin. apply (Hvalid m cmd). now right.
Qed.

Lemma range_metrics_invalid entries : forall acc s m cmd,
  In (m, cmd) entries -> inspector_Valid m = false ->
  exists m',
    range_metrics entries acc s = Fatal (invalid_metric_msg m') s /\
    inspector_Valid m' = false /\ In m' (List.map fst entries).
Proof.
  induction entries as [|[m0 c0] entries IH]; intros acc s m cmd Hin Hbad; simpl.
  - destruct Hin.
  - destruct (inspector_Valid m0) eqn:E0.
    + destruct Hin as [[= -> ->]|Hin]; [congruence|].
      destruct (IH (<[m0 := fmt_Sprintf_v c0]> acc) s m cmd Hin Hbad)
        as (m' & Hrun & Hm' & Hin').
      exists m'. auto.
    + exists m0. unfold fatal. auto.
Qed.

Lemma range_metrics_Ok entries : forall acc s metrics s',
  range_metrics entries acc s = Ok metrics s' ->
  s' = s /\
  (forall m cmd, In (m, cmd) entries -> inspector_Valid m = true) /\
  (List.NoDup (List.map fst entries) ->
   forall m cmd, In (m, cmd) entries -> metrics !! m = Some (fmt_Sprintf_v cmd)) /\
  (forall m, ~ In m (List.map fst entries) -> metrics !! m = acc !! m).
Proof.
  induction entries as [|[m0 c0] entries IH]; intros acc s metrics s'; simpl.
  - unfold ret. intros [= -> ->]. repeat split; intros; tauto.
  - destruct (inspector_Valid m0) eqn:E0; [|discriminate].
    intros Hrun. destruct (IH _ _ _ _ Hrun) as (-> & Hvalid & Hkept & Hrest).
    split; [reflexivity|]. split; [|split].
    + intros m cmd [[= -> ->]|Hin]; eauto.
    + intros Hnd m cmd Hin. apply NoDup_cons_iff in Hnd as [Hfresh Hnd].
      destruct Hin as [[= -> ->]|Hin]; [|eauto].
      rewrite (Hrest _ Hfresh). apply lookup_insert_eq.
    + intros m Hout. rewrite Hrest by tauto.
      apply lookup_insert_ne. tauto.
Qed.

Lemma range_debug_run hosts : forall s,
  exists l, range_debug hosts s = Ok tt (mkState (heap s) (log s ++ l)).
Proof.
  induction hosts as [|h hosts IH]; intros s; simpl.
  - exists []. unfold ret. rewrite app_nil_r. now destruct s.
  - unfold bind, peek, logf. simpl.
    destruct (IH (mkState (heap s)
                 (log s ++ [Debugf_host (Host.Address h) (heap s !! Host.Connection h)])))
      as [l ->].
    simpl. rewrite <- app_assoc. eauto.
Qed.

(** C8: every configured metric name is put to [inspector.Valid] while the
    configuration is loaded.  If the loader returns, every name is valid and
    the metrics of the dashboard are exactly the configured names, each with
    its custom command as [%v] prints it (a string as itself); and once the
    hosts have resolved, an invalid name ends the process with the
    invalid-metric error. *)
Theorem GetDashboardInfoConfig_metrics config s :
  (forall info s',
      GetDashboardInfoConfig config s = Ok info s' ->
      (forall m cmd, In (m, cmd) (Config.Metrics config) ->
         inspector_Valid m = true) /\
      (List.NoDup (List.map fst (Config.Metrics config)) ->
       forall m cmd, In (m, cmd) (Config.Metrics config) ->
         Metrics info !! m = Some (fmt_Sprintf_v cmd) /\
         (forall c, cmd = VStr c -> Metrics info !! m = Some c)) /\
      (forall m, is_Some (Metrics info !! m) ->
         In m (List.map fst (Config.Metrics config)))) /\
  (well_formed (VMap (Config.Hosts config)) = true ->
   forall m cmd, In (m, cmd) (Config.Metrics config) ->
     inspector_Valid m = false ->
     exists m' s',
       GetDashboardInfoConfig config s = Fatal (invalid_metric_msg m') s' /\
       inspector_Valid m' = false /\
       In m' (List.map fst (Config.Metrics config))).
Proof.
  split.
  - intros info s' Hrun. unfold GetDashboardInfoConfig in Hrun.
    apply bind_Ok_inv in Hrun as (root & s1 & _ & Hrun).
    apply bind_Ok_inv in Hrun as (hosts & s2 & _ & Hrun).
    apply bind_Ok_inv in Hrun as (metrics & s3 & Hm & Hrun).
    apply bind_Ok_inv in Hrun as (? & s4 & _ & Hrun).
    apply bind_Ok_inv in Hrun as (? & s5 & _ & Hret).
    unfold ret in Hret. injection Hret as <- _.
    apply range_metrics_Ok in Hm as (_ & Hvalid & Hkept & Hrest). simpl.
    split; [assumption|]. split.
    + intros Hnd m cmd Hin. specialize (Hkept Hnd m cmd Hin).
      split; [assumption|]. intros c ->.
      now rewrite fmt_Sprintf_v_string in Hkept.
    + intros m Hm.
      destruct (in_dec string_dec m (List.map fst (Config.Metrics config)))
        as [Hin|Hout]; [assumption|].
      rewrite (Hrest m Hout), lookup_empty in Hm. now destruct Hm.
  - intros Hwf m cmd Hin Hbad. unfold GetDashboardInfoConfig.
    unfold bind at 1. unfold alloc at 1.
    set (s1 := mkState (heap s ++ [Connection.zero]) (log s)).
    destruct (parseConfig_ok "root" "" (Config.Hosts config) (length (heap s)) s1
                Connection.zero Hwf)
      as (hosts & s2 & Hrun & _).
    { simpl. rewrite lookup_app_r by lia. now rewrite Nat.sub_diag. }
    rewrite (bind_Ok _ _ _ _ _ Hrun).
    destruct (range_metrics_invalid (Config.Metrics config) ∅ s2 m cmd Hin Hbad)
      as (m' & Hm & Hbad' & Hin').
    rewrite (bind_Fatal _ _ _ _ _ Hm). eauto.
Qed.

End LoaderFacts.

(** C10: a connection whose type is anything but the string ssh is driven
    locally; [ToDriver] is total and has no error to report. *)
Theorem ToDriver_not_ssh conn :
  Connection.Type_ conn <> "ssh" -> ToDriver conn = driver.Local.
Proof.
  intros Hty. unfold ToDriver. apply String.eqb_neq in Hty. now rewrite Hty.
Qed.

(** * The loader on the sample documents *)

(** C2: two sibling leaves that inherit the root connection are given the
    one cell of the root connection, and its [Host] is the key of the leaf
    resolved last: the connection of host [a] is bound to [b] (and, taken in
    the other order, that of [b] to [a]). *)
Theorem parseConfig_siblings_share_connection :
  (exists s',
      parseConfig "root" "" two_hosts 0%nat state_root =
        Ok [Host.mk "a" "" 0%nat; Host.mk "b" "" 0%nat] s' /\
      heap s' = [Connection.set_Host "b" Connection.zero]) /\
  (exists s',
      parseConfig "root" "" two_hosts_swapped 0%nat state_root =
        Ok [Host.mk "b" "" 0%nat; Host.mk "a" "" 0%nat] s' /\
      heap s' = [Connection.set_Host "a" Connection.zero]).
Proof. split; eexists; split; reflexivity. Qed.

Lemma two_hosts_reorder : reorder (VMap two_hosts) (VMap two_hosts_swapped).
Proof.
  apply reorder_node, reorder_fields_children, reorder_children_swap.
Qed.

(** C4 fails as stated: the two enumerations of [two_hosts] return the hosts
    in different orders. *)
Lemma parseConfig_order_not_fixed :
  ~ (forall group group',
        reorder (VMap group) (VMap group') ->
        forall hosts s hosts' s',
          parseConfig "root" "" group 0%nat state_root = Ok hosts s ->
          parseConfig "root" "" group' 0%nat state_root = Ok hosts' s' ->
          List.map Host.Address hosts = List.map Host.Address hosts').
Proof.
  intros Hfixed.
  specialize (Hfixed two_hosts two_hosts_swapped two_hosts_reorder
                _ _ _ _ eq_refl eq_refl).
  discriminate Hfixed.
Qed.

(** C3 fails as stated, of the whole connection: the connection of host [a]
    is not the root default (its [Host] is [b]), and declaring a connection
    at its sibling [b] changes it (its [Host] becomes [a]). *)
Lemma parseConfig_sibling_connection_changes :
  exists hosts s1 hosts' s2,
    parseConfig "root" "" two_hosts 0%nat state_root = Ok hosts s1 /\
    parseConfig "root" "" two_hosts_b_ssh 0%nat state_root = Ok hosts' s2 /\
    List.map (whole s1) (take 1 hosts) =
      [("a", Some (Connection.set_Host "b" Connection.zero))] /\
    List.map (whole s2) (take 1 hosts') =
      [("a", Some (Connection.set_Host "a" Connection.zero))] /\
    List.map (whole s1) (take 1 hosts) <> List.map (whole s2) (take 1 hosts') /\
    List.map (whole s1) (take 1 hosts) <> [("a", Some Connection.zero)].
Proof.
  do 4 eexists. split; [reflexivity|]. split; [reflexivity|].
  split; [reflexivity|]. split; [reflexivity|]. split; discriminate.
Qed.

(** C5 fails as stated: with [poll-interval: 3] the process ends with the
    poll-interval error only after the hosts have been resolved (the log holds
    the resolver's line for host [a]), and a tree that does not resolve ends
    it with the resolver's own error. *)
Lemma GetDashboardInfoConfig_resolves_first :
  Config.PollInterval low_interval < 5 /\
  (exists s',
      GetDashboardInfoConfig low_interval state0 = Fatal poll_interval_msg s' /\
      In (Infof_loading "root:a" "a" (Some Connection.zero)) (log s')) /\
  Config.PollInterval low_interval_two_logins < 5 /\
  (exists s',
      GetDashboardInfoConfig low_interval_two_logins state0 =
        Fatal both_logins_msg s').
Proof.
  split; [reflexivity|]. split.
  - eexists. split; [reflexivity|]. simpl. auto.
  - split; [reflexivity|]. eexists. reflexivity.
Qed.

(** ** The theorems at the sample documents *)

Lemma parseConfig_one_host_per_leaf_witness :
  well_formed (VMap ex_tree) = true /\
  (0 < length (heap state_root))%nat /\
  exists hosts s',
    parseConfig "root" "" ex_tree 0%nat state_root = Ok hosts s' /\
    List.map (fun h => (Host.Address h, Host.Alias h)) hosts =
      leaf_hosts (VMap ex_tree) "" /\
    length hosts = leaf_count (VMap ex_tree).
Proof.
  assert (Hwf : well_formed (VMap ex_tree) = true) by reflexivity.
  assert (Hcur : (0 < length (heap state_root))%nat) by (simpl; lia).
  split; [exact Hwf|]. split; [exact Hcur|].
  exact (parseConfig_one_host_per_leaf "root" "" ex_tree 0%nat state_root Hwf Hcur).
Defined.

Lemma parseConnection_port_witness :
  both_logins (mapstructure_Decode ssh_no_port) = false /\
  exists c',
    parseConnection ssh_no_port state0 = Ok 0%nat (mkState [c'] []) /\
    Connection.Port c' = 22.
Proof.
  assert (Hlogins : both_logins (mapstructure_Decode ssh_no_port) = false)
    by reflexivity.
  split; [exact Hlogins|].
  destruct (parseConnection_port ssh_no_port state0 Hlogins)
    as (c' & Hrun & Hdefault & _).
  exists c'. split; [exact Hrun|]. apply Hdefault; reflexivity.
Defined.

Lemma parseConnection_both_logins_witness :
  parseConnection two_logins state0 = Fatal both_logins_msg state0 /\
  exists p s', parseConnection ssh_no_port state0 = Ok p s'.
Proof.
  split.
  - apply (proj1 (parseConnection_both_logins two_logins state0)).
    split; simpl; discriminate.
  - apply (proj2 (parseConnection_both_logins ssh_no_port state0)).
    left. reflexivity.
Defined.

Lemma GetDashboardInfoConfig_metrics_witness :
  (exists info s',
      GetDashboardInfoConfig good_config state0 = Ok info s' /\
      Metrics info !! "memory" = Some "<nil>" /\
      Metrics info !! "disk" = Some "df -h") /\
  (exists m' s',
      GetDashboardInfoConfig unknown_metric state0 =
        Fatal (invalid_metric_msg m') s' /\
      inspector_Valid m' = false).
Proof.
  split.
  - destruct (GetDashboardInfoConfig good_config state0) as [info s'| |] eqn:Hrun;
      [|vm_compute in Hrun; discriminate Hrun..].
    destruct (proj1 (GetDashboardInfoConfig_metrics good_config state0)
                info s' Hrun) as (_ & Hkept & _).
    assert (Hnd : List.NoDup (List.map fst (Config.Metrics good_config))).
    { simpl. repeat constructor; simpl; intuition discriminate. }
    exists info, s'. split; [reflexivity|]. split.
    + assert (Hin : In ("memory", VNil) (Config.Metrics good_config))
        by (simpl; auto).
      exact (proj1 (Hkept Hnd "memory" VNil Hin)).
    + assert (Hin : In ("disk", VStr "df -h") (Config.Metrics good_config))
        by (simpl; auto).
      exact (proj2 (Hkept Hnd "disk" (VStr "df -h") Hin) "df -h" eq_refl).
  - destruct (proj2 (GetDashboardInfoConfig_metrics unknown_metric state0)
                eq_refl "cpu" VNil) as (m' & s' & Hrun & Hbad & _).
    + simpl. auto.
    + reflexivity.
    + exists m', s'. split; assumption.
Defined.


Lemma ToDriver_not_ssh_witness :
  ToDriver (Connection.mk "local" "" "" "" "" 0 "") = driver.Local /\
  ToDriver (Connection.mk "" "" "" "" "" 0 "") = driver.Local /\
  ToDriver (Connection.mk "shh" "root" "" "" "" 22 "web") = driver.Local.
Proof.
  split; [|split]; apply ToDriver_not_ssh; simpl; discriminate.
Defined.

(** * More of the loader *)

Lemma Contains_In hostList host :
  Contains hostList host = true <-> In (Host.Address host) hostList.
Proof.
  induction hostList as [|compare rest IH]; simpl; [easy|].
  destruct (String.eqb (Host.Address host) compare) eqn:E.
  - apply String.eqb_eq in E. intuition.
  - apply String.eqb_neq in E. rewrite IH. intuition congruence.
Qed.

Lemma GetAllHostAddresses_map dashboardInfo :
  GetAllHostAddresses dashboardInfo = List.map Host.Address (Hosts dashboardInfo).
Proof.
  unfold GetAllHostAddresses.
  enough (Hgen : forall hosts acc,
    fold_left (fun addresses host => addresses ++ [Host.Address host]) hosts acc =
    acc ++ List.map Host.Address hosts) by apply Hgen.
  induction hosts as [|h hosts IH]; intros acc; simpl.
  - now rewrite app_nil_r.
  - rewrite IH, <- app_assoc. reflexivity.
Qed.

(** [Contains] is membership of the host's address in the list. *)
Theorem Contains_iff hostList host :
  Contains hostList host = true <-> In (Host.Address host) hostList.
Proof. apply Contains_In. Qed.

(** [GetAllHostAddresses] lists the addresses of the hosts in their order,
    and [Contains] finds in it exactly the hosts whose address some host of
    the dashboard bears. *)
Theorem GetAllHostAddresses_Contains dashboardInfo host :
  GetAllHostAddresses dashboardInfo =
    List.map Host.Address (Hosts dashboardInfo) /\
  (Contains (GetAllHostAddresses dashboardInfo) host = true <->
   exists h, Host.Address h = Host.Address host /\ In h (Hosts dashboardInfo)).
Proof.
  split; [apply GetAllHostAddresses_map|].
  rewrite Contains_In, GetAllHostAddresses_map, in_map_iff. reflexivity.
Qed.

Section LoaderMore.
Context `{Collaborators}.

(** ** What a run that returns did *)

Lemma declared_count_eq v :
  declared_count v =
  (match declared (map_or_nil v) with Some _ => 1 | None => 0 end +
   match map_get "children" (map_or_nil v) with
   | Some (VMap cs) => list_sum (List.map (fun '(_, c) => declared_count c) cs)
   | _ => 0
   end)%nat.
Proof.
  unfold declared. destruct v; try reflexivity. simpl.
  rewrite with_children_get.
  destruct (map_get "connection" entries);
    destruct (map_get "children" entries) as [[]|]; reflexivity.
Qed.

Lemma prologue_Ok_inv name host group cur s cc s1 :
  prologue name host group cur s = Ok cc s1 ->
  match declared group with
  | None => cc = cur /\ heap s1 = heap s
  | Some c => cc = length (heap s) /\ heap s1 = heap s ++ [c]
  end.
Proof.
  unfold prologue, node_connection, declared. intros Hrun.
  apply bind_Ok_inv in Hrun as (shown & sa & Hpeek & Hrun).
  apply bind_Ok_inv in Hrun as ([] & sb & Hlog & Hrun).
  unfold peek in Hpeek. injection Hpeek as <- <-.
  unfold logf in Hlog. injection Hlog as <-.
  destruct (map_get "connection" group) as [conn|].
  - apply bind_Ok_inv in Hrun as ([] & sc & Hwhen & Hrun).
    assert (Hsc : heap sc = heap s).
    { unfold when, logf, ret in Hwhen.
      destruct (negb (is_map conn)); injection Hwhen as <-; reflexivity. }
    unfold parseConnection, alloc, fatal in Hrun.
    destruct (both_logins _); [discriminate|].
    injection Hrun as <- <-. simpl. now rewrite Hsc.
  - unfold ret in Hrun. injection Hrun as <- <-. auto.
Qed.

Lemma leaf_host_Ok_inv host group cc s hosts s1 :
  leaf_host host group cc s = Ok hosts s1 ->
  exists c0,
    heap s !! cc = Some c0 /\
    heap s1 = <[cc := Connection.set_Host host c0]> (heap s) /\
    hosts = [Host.mk host (alias_or_empty group) cc].
Proof.
  unfold leaf_host, alias_of, alias_or_empty, store_Host. intros Hrun.
  apply bind_Ok_inv in Hrun as ([] & sa & Hstore & Hrun).
  apply bind_Ok_inv in Hrun as (alias & sb & Hal & Hret).
  unfold ret in Hret. injection Hret as <- <-.
  destruct (heap s !! cc) as [c0|]; [|discriminate].
  injection Hstore as <-. exists c0.
  destruct (map_get "alias" group) as [[]|]; try discriminate;
    unfold ret in Hal; injection Hal as <- <-; auto.
Qed.

Lemma exclusive_app hs1 hs2 L1 L2 :
  length hs1 = length L1 ->
  exclusive hs1 L1 ->
  exclusive hs2 L2 ->
  (forall i j h h' a c path,
      hs1 !! i = Some h -> L1 !! i = Some (a, Some c :: path) ->
      hs2 !! j = Some h' -> Host.Connection h <> Host.Connection h') ->
  (forall i j h h' a c path,
      hs2 !! i = Some h -> L2 !! i = Some (a, Some c :: path) ->
      hs1 !! j = Some h' -> Host.Connection h <> Host.Connection h') ->
  exclusive (hs1 ++ hs2) (L1 ++ L2).
Proof.
  intros Hlen E1 E2 E12 E21 i j h h' a c path Hij Hi Hleaf Hj.
  destruct (decide (i < length hs1)%nat) as [Hi1|Hi2];
    destruct (decide (j < length hs1)%nat) as [Hj1|Hj2].
  - rewrite lookup_app_l in Hi, Hj by assumption.
    rewrite lookup_app_l in Hleaf by lia. eauto.
  - rewrite lookup_app_l in Hi by assumption.
    rewrite lookup_app_l in Hleaf by lia.
    rewrite lookup_app_r in Hj by lia. eauto.
  - rewrite lookup_app_r in Hi by lia.
    rewrite lookup_app_r in Hleaf by lia. rewrite <- Hlen in Hleaf.
    rewrite lookup_app_l in Hj by assumption. eauto.
  - rewrite lookup_app_r in Hi, Hj by lia.
    rewrite lookup_app_r in Hleaf by lia. rewrite <- Hlen in Hleaf.
    eapply (E2 (i - length hs1)%nat (j - length hs1)%nat); eauto. lia.
Qed.

Lemma range_children_tracks name (cc : ptr) above cs :
  (forall k c, In (k, c) cs -> tracks c) ->
  forall s hosts s',
    range_children (parseChild name cc) cs s = Ok hosts s' ->
    (cc < length (heap s))%nat ->
    length (heap s') =
      (length (heap s) +
       list_sum (List.map (fun '(_, c) => declared_count c) cs))%nat /\
    (forall p : ptr, (p < length (heap s))%nat -> p <> cc ->
       heap s' !! p = heap s !! p) /\
    Forall2 (placed s s' cc) hosts
      (List.flat_map (fun '(k, c) => ancestry c k above) cs) /\
    exclusive hosts (List.flat_map (fun '(k, c) => ancestry c k above) cs).
Proof.
  induction cs as [|[k c] cs IHcs]; intros IH s hosts s' Hrun Hcc.
  - simpl in Hrun. unfold ret in Hrun. injection Hrun as <- <-. simpl.
    split; [lia|]. split; [reflexivity|]. split; [constructor|].
    intros i j h h' a c path _ Hi. now rewrite lookup_nil in Hi.
  - simpl in Hrun.
    apply bind_Ok_inv in Hrun as (hs1 & sA & Hchild & Hrun).
    apply bind_Ok_inv in Hrun as (hs2 & sB & Hrest & Hret).
    unfold ret in Hret. injection Hret as <- <-.
    destruct (parseChild_eq name cc k c s) as (s0 & Hs0 & _ & Hstep).
    rewrite Hstep in Hchild.
    destruct (IH k c (or_introl eq_refl) _ _ _ _ _ _ above Hchild)
      as (L1 & F1 & P1 & E1); [now rewrite Hs0|].
    rewrite Hs0 in L1, F1.
    destruct (IHcs (fun k' c' Hin => IH k' c' (or_intror Hin)) sA hs2 sB Hrest)
      as (L2 & F2 & P2 & E2); [lia|].
    assert (P1' : Forall2
      (fun h leaf => placed s sB cc h leaf /\
                     (Host.Connection h = cc \/
                      (Host.Connection h < length (heap sA))%nat))
      hs1 (ancestry c k above)).
    { eapply Forall2_impl; [exact P1|].
      intros h leaf (Ha & Hp & Hown). rewrite Hs0 in Hp, Hown.
      split; [|lia]. split; [assumption|]. split; [lia|].
      destruct (snd leaf) as [|[c0|] ?]; try exact I.
      destruct Hown as [Hlo Hcell]. split; [assumption|].
      rewrite F2 by lia. assumption. }
    assert (P2' : Forall2 (placed s sB cc) hs2
      (List.flat_map (fun '(k, c) => ancestry c k above) cs)).
    { eapply Forall2_impl; [exact P2|].
      intros h leaf (Ha & Hp & Hown).
      split; [assumption|]. split; [lia|].
      destruct (snd leaf) as [|[c0|] ?]; try exact I.
      destruct Hown as [Hlo Hcell]. split; [lia|assumption]. }
    simpl. split; [lia|]. split; [|split].
    + intros p Hp Hne. rewrite F2 by lia. now apply F1.
    + apply Forall2_app; [|assumption].
      eapply Forall2_impl; [exact P1'|]. now intros h leaf [Hpl _].
    + apply exclusive_app; try assumption.
      * eapply Forall2_length; eassumption.
      * intros i j h h' a c0 path Hi Hleaf Hj.
        destruct (Forall2_lookup_lr _ _ _ _ _ _ P1 Hi Hleaf) as (_ & Hp & Hlo & _).
        destruct (Forall2_lookup_l _ _ _ _ _ P2 Hj) as (leaf' & _ & _ & Hp' & _).
        rewrite Hs0 in Hp, Hlo. simpl in Hlo. lia.
      * intros i j h h' a c0 path Hi Hleaf Hj.
        destruct (Forall2_lookup_lr _ _ _ _ _ _ P2 Hi Hleaf) as (_ & Hp & Hlo & _).
        destruct (Forall2_lookup_l _ _ _ _ _ P1' Hj) as (leaf' & _ & _ & Hp').
        simpl in Hlo. lia.
Qed.

Lemma parseNode_tracks v : tracks v.
Proof.
  induction v as [v IH] using node_ind.
  intros name host cur s hosts s' above Hrun Hcur.
  rewrite parseNode_eq, parseConfig_eq in Hrun.
  apply bind_Ok_inv in Hrun as (cc & s1 & Hpro & Hrun).
  apply prologue_Ok_inv in Hpro.
  rewrite declared_count_eq, ancestry_eq.
  assert (Hcc : (cc < length (heap s1))%nat /\
                (length (heap s) <= length (heap s1))%nat /\
                (cc = cur \/ cc = length (heap s)) /\
                (forall p : ptr, (p < length (heap s))%nat ->
                   heap s1 !! p = heap s !! p) /\
                length (heap s1) =
                  (length (heap s) +
                   match declared (map_or_nil v) with Some _ => 1 | None => 0 end)%nat /\
                match declared (map_or_nil v) with
                | Some c => cc = length (heap s) /\ heap s1 !! cc = Some c
                | None => cc = cur
                end).
  { destruct (declared (map_or_nil v)) as [c|]; destruct Hpro as [-> Hheap];
      rewrite Hheap.
    - rewrite length_app. simpl. repeat split; try lia; auto.
      + intros p Hp. now rewrite lookup_app_l.
      + rewrite lookup_app_r by lia. now rewrite Nat.sub_diag.
    - repeat split; try lia; auto. }
  destruct Hcc as (Hlive & Hgrow & Hwhich & Hsame & Hlen1 & Hdecl).
  destruct (map_get "children" (map_or_nil v)) as [[| | | | |cs]|];
    try discriminate.
  - simpl in Hrun.
    destruct (range_children_tracks name cc
                (declared (map_or_nil v) :: above) cs (IH cs eq_refl)
                s1 hosts s' Hrun Hlive) as (L & F & P & E).
    split; [lia|]. split; [|split; [|exact E]].
    + intros p Hp Hne. rewrite F by lia. now apply Hsame.
    + eapply Forall2_impl; [exact P|].
      intros h leaf (Ha & Hp & Hown).
      split; [assumption|]. split; [lia|].
      destruct (snd leaf) as [|[c0|] ?]; try exact I.
      destruct Hown as [Hlo Hcell]. split; [lia|assumption].
  - apply leaf_host_Ok_inv in Hrun as (c0 & Hc0 & Hheap & ->).
    assert (Hlen2 : length (heap s') = length (heap s1))
      by (rewrite Hheap; apply length_insert).
    split; [lia|]. split; [|split].
    + intros p Hp Hne. rewrite Hheap.
      rewrite list_lookup_insert_ne by lia. now apply Hsame.
    + constructor; [|constructor]. split; [reflexivity|]. split; [simpl; lia|].
      simpl. destruct (declared (map_or_nil v)) as [c|]; [|exact I].
      destruct Hdecl as [-> Hcell]. split; [lia|].
      rewrite Hheap, list_lookup_insert_eq by lia.
      rewrite Hcell in Hc0. now injection Hc0 as <-.
    + intros [|i] [|j] h h' a c path Hij Hi _ Hj; try easy;
        simpl in Hi, Hj; now rewrite ?lookup_nil in *.
Qed.

Lemma placed_live s s' (cur : ptr) hosts leaves :
  (cur < length (heap s))%nat ->
  (length (heap s) <= length (heap s'))%nat ->
  Forall2 (placed s s' cur) hosts leaves ->
  Forall (fun h => (Host.Connection h < length (heap s'))%nat) hosts.
Proof.
  intros Hcur Hgrow. induction 1 as [|h leaf hosts leaves (_ & Hp & _) _ IH];
    constructor; [lia|assumption].
Qed.

(** If [parseConfig] returns, it has allocated one cell for each node that
    declares a connection, has left every other cell than the current
    connection as it was and the current connection with its settings, and
    every host it returns points to a cell of the heap. *)
Theorem parseConfig_heap name host group (cur : ptr) s hosts s' :
  parseConfig name host group cur s = Ok hosts s' ->
  (cur < length (heap s))%nat ->
  length (heap s') = (length (heap s) + declared_count (VMap group))%nat /\
  (forall p : ptr, (p < length (heap s))%nat -> p <> cur ->
     heap s' !! p = heap s !! p) /\
  (exists c c', heap s !! cur = Some c /\ heap s' !! cur = Some c' /\
                settings c' = settings c) /\
  Forall (fun h => (Host.Connection h < length (heap s'))%nat) hosts.
Proof.
  intros Hrun Hcur.
  destruct (parseNode_tracks (VMap group) name host cur s hosts s' [] Hrun Hcur)
    as (Hlen & Hframe & Hplaced & _).
  split; [assumption|]. split; [assumption|]. split.
  - pose proof (parseNode_Ok_wf _ _ _ _ _ _ _ Hrun) as Hwf.
    destruct (lookup_lt_is_Some_2 _ _ Hcur) as [root Hroot].
    destruct (parseConfig_ok name host group cur s root Hwf Hroot)
      as (hosts2 & s2 & Hrun2 & Hext & _).
    rewrite Hrun in Hrun2. injection Hrun2 as <- <-.
    destruct (Hext cur root Hroot) as (c' & Hc' & Hset). eauto.
  - eapply placed_live; [eassumption| |eassumption]. lia.
Qed.

(** If [parseConfig] returns, a leaf that declares its own connection gets a
    cell of its own: the cell holds the declared connection bound to the
    address of the host, and no other host of the result points to it. *)
Theorem parseConfig_own_connection name host group (cur : ptr) s hosts s'
    (i : nat) h a c path :
  parseConfig name host group cur s = Ok hosts s' ->
  (cur < length (heap s))%nat ->
  hosts !! i = Some h ->
  ancestry (VMap group) host [] !! i = Some (a, Some c :: path) ->
  Host.Address h = a /\
  heap s' !! Host.Connection h = Some (Connection.set_Host a c) /\
  Host.Connection h <> cur /\
  forall (j : nat) h', j <> i -> hosts !! j = Some h' ->
    Host.Connection h' <> Host.Connection h.
Proof.
  intros Hrun Hcur Hi Hleaf.
  destruct (parseNode_tracks (VMap group) name host cur s hosts s' [] Hrun Hcur)
    as (_ & _ & Hplaced & Hexcl).
  destruct (Forall2_lookup_lr _ _ _ _ _ _ Hplaced Hi Hleaf)
    as (Ha & _ & Hlo & Hcell).
  simpl in Ha, Hlo, Hcell. subst a.
  split; [reflexivity|]. split; [assumption|]. split; [lia|].
  intros j h' Hij Hj Heq.
  apply (Hexcl i j h h' _ _ _ (Nat.neq_sym _ _ Hij) Hi Hleaf Hj). congruence.
Qed.

Lemma parseConfig_wf_Ok name host group (cur : ptr) s :
  (cur < length (heap s))%nat ->
  well_formed (VMap group) = true ->
  exists hosts s', parseConfig name host group cur s = Ok hosts s'.
Proof.
  intros Hcur Hwf. destruct (lookup_lt_is_Some_2 _ _ Hcur) as [root Hroot].
  destruct (parseConfig_ok name host group cur s root Hwf Hroot)
    as (hosts & s' & Hrun & _).
  eauto.
Qed.

(** Under a live connection, [parseConfig] returns exactly on the
    well-formed trees. *)
Theorem parseConfig_returns_iff name host group (cur : ptr) s :
  (cur < length (heap s))%nat ->
  (exists hosts s', parseConfig name host group cur s = Ok hosts s') <->
  well_formed (VMap group) = true.
Proof.
  intros Hcur. split.
  - intros (hosts & s' & Hrun). eapply parseNode_Ok_wf. exact Hrun.
  - now apply parseConfig_wf_Ok.
Qed.

Lemma prologue_end name host group cur s :
  match prologue name host group cur s with
  | Ok _ _ => True
  | Fatal msg _ => msg = both_logins_msg
  | Panic _ _ => False
  end.
Proof.
  unfold prologue, node_connection, peek, logf, bind, when, ret.
  destruct (map_get "connection" group) as [conn|]; [|exact I].
  unfold parseConnection, fatal, alloc.
  destruct (negb (is_map conn)); simpl; destruct (both_logins _); simpl; auto.
Qed.

Lemma leaf_host_end host group (cc : ptr) s :
  (cc < length (heap s))%nat ->
  expected_end (leaf_host host group cc s).
Proof.
  intros Hcc.
  assert (Hsome : is_Some (heap s !! cc)) by now apply lookup_lt_is_Some_2.
  destruct Hsome as [c0 Hc0].
  unfold leaf_host, store_Host, alias_of, bind. rewrite Hc0.
  destruct (map_get "alias" group) as [[]|]; simpl; auto.
Qed.

Lemma range_children_end name (cc : ptr) cs :
  (forall k c, In (k, c) cs ->
     forall name host (cur : ptr) s, (cur < length (heap s))%nat ->
       expected_end (parseNode c name host cur s)) ->
  forall s, (cc < length (heap s))%nat ->
    expected_end (range_children (parseChild name cc) cs s).
Proof.
  induction cs as [|[k c] cs IHcs]; intros IH s Hcc; [exact I|].
  simpl. unfold bind at 1.
  destruct (parseChild_eq name cc k c s) as (s0 & Hs0 & _ & Hstep).
  rewrite Hstep.
  pose proof (IH k c (or_introl eq_refl) (name +:+ ":" +:+ k) k cc s0) as Hend.
  rewrite Hs0 in Hend. specialize (Hend Hcc).
  destruct (parseNode c (name +:+ ":" +:+ k) k cc s0) as [hs1 sA| |] eqn:Hchild;
    [|exact Hend..].
  destruct (parseNode_tracks c _ _ _ _ _ _ [] Hchild) as (Hlen & _);
    [now rewrite Hs0|].
  rewrite Hs0 in Hlen.
  specialize (IHcs (fun k' c' Hin => IH k' c' (or_intror Hin)) sA).
  unfold bind.
  destruct (range_children (parseChild name cc) cs sA); [exact I|..];
    apply IHcs; lia.
Qed.

Lemma parseNode_end v : forall name host (cur : ptr) s,
  (cur < length (heap s))%nat ->
  expected_end (parseNode v name host cur s).
Proof.
  induction v as [v IH] using node_ind. intros name host cur s Hcur.
  rewrite parseNode_eq, parseConfig_eq. unfold bind at 1.
  pose proof (prologue_end name host (map_or_nil v) cur s) as Hpro.
  destruct (prologue name host (map_or_nil v) cur s) as [cc s1|msg s1|] eqn:Hrun;
    [|simpl; auto|destruct Hpro].
  assert (Hcc : (cc < length (heap s1))%nat).
  { apply prologue_Ok_inv in Hrun.
    destruct (declared (map_or_nil v)); destruct Hrun as [-> ->];
      rewrite ?length_app; simpl; lia. }
  destruct (map_get "children" (map_or_nil v)) as [[| | | | |cs]|];
    try (simpl; right; eauto; fail).
  - simpl. apply range_children_end; [|assumption]. apply (IH cs eq_refl).
  - now apply leaf_host_end.
Qed.

(** Under a live connection, [parseConfig] ends the process in three ways
    only: the fatal error of a connection with both logins, the fatal error
    of a [children] entry that is not a mapping, and the panic of an [alias]
    that is not a string; it never dereferences a dangling connection. *)
Theorem parseConfig_ends name host group (cur : ptr) s :
  (cur < length (heap s))%nat ->
  match parseConfig name host group cur s with
  | Ok _ _ => well_formed (VMap group) = true
  | Fatal msg _ =>
      well_formed (VMap group) = false /\
      (msg = both_logins_msg \/ exists name', msg = children_msg name')
  | Panic msg _ =>
      well_formed (VMap group) = false /\ msg = alias_panic_msg
  end.
Proof.
  intros Hcur.
  pose proof (parseNode_end (VMap group) name host cur s Hcur) as Hend.
  pose proof (parseConfig_wf_Ok name host group cur s Hcur) as Hwf.
  unfold parseConfig in *.
  destruct (parseNode (VMap group) name host cur s) as [hosts s'|msg s'|msg s']
    eqn:Hrun.
  - eapply parseNode_Ok_wf. exact Hrun.
  - split; [|exact Hend].
    destruct (well_formed (VMap group)); [|reflexivity].
    destruct (Hwf eq_refl) as (? & ? & ?). discriminate.
  - split; [|exact Hend].
    destruct (well_formed (VMap group)); [|reflexivity].
    destruct (Hwf eq_refl) as (? & ? & ?). discriminate.
Qed.

(** ** The dashboard that is loaded *)

Lemma range_debug_heap hosts s r s1 :
  range_debug hosts s = Ok r s1 -> heap s1 = heap s.
Proof.
  intros Hrun. destruct (range_debug_run hosts s) as [l Hl].
  rewrite Hl in Hrun. now injection Hrun as _ <-.
Qed.

Lemma GetDashboardInfoConfig_Ok_inv config s info s' :
  GetDashboardInfoConfig config s = Ok info s' ->
  exists hosts s2 metrics,
    parseConfig "root" "" (Config.Hosts config) (length (heap s))
      (mkState (heap s ++ [Connection.zero]) (log s)) = Ok hosts s2 /\
    range_metrics (Config.Metrics config) ∅ s2 = Ok metrics s2 /\
    heap s' = heap s2 /\
    5 <= Config.PollInterval config /\
    info = mkDashboardInfo hosts metrics
             (if String.eqb (Config.Title config) ""
              then "Saido" else Config.Title config)
             (Config.PollInterval config).
Proof.
  unfold GetDashboardInfoConfig. intros Hrun.
  apply bind_Ok_inv in Hrun as (root & s1 & Halloc & Hrun).
  unfold alloc in Halloc. injection Halloc as <- <-.
  apply bind_Ok_inv in Hrun as (hosts & s2 & Hhosts & Hrun).
  apply bind_Ok_inv in Hrun as (metrics & s3 & Hm & Hrun).
  pose proof (range_metrics_Ok _ _ _ _ _ Hm) as (-> & _).
  apply bind_Ok_inv in Hrun as ([] & s4 & Hd & Hrun).
  apply range_debug_heap in Hd.
  apply bind_Ok_inv in Hrun as ([] & s5 & Hwhen & Hret).
  unfold ret in Hret. injection Hret as <- <-.
  unfold when, fatal, ret in Hwhen.
  destruct (Config.PollInterval config <? 5) eqn:Hpoll; [discriminate|].
  injection Hwhen as <-. apply Z.ltb_ge in Hpoll.
  exists hosts, s2, metrics. auto.
Qed.

(** If [GetDashboardInfoConfig] returns, the dashboard has the configured
    title, or Saido if that is empty, so never an empty title; the configured
    poll interval, which is at least 5; and the leaves of the hosts tree as
    its hosts, whose addresses [GetAllHostAddresses] lists in traversal
    order.  Every host points into the heap, and the cells that were there
    before the call are as they were. *)
Theorem GetDashboardInfoConfig_returns config s info s' :
  GetDashboardInfoConfig config s = Ok info s' ->
  Title info =
    (if String.eqb (Config.Title config) "" then "Saido" else Config.Title config) /\
  Title info <> "" /\
  PollInterval info = Config.PollInterval config /\
  5 <= PollInterval info /\
  List.map (fun h => (Host.Address h, Host.Alias h)) (Hosts info) =
    leaf_hosts (VMap (Config.Hosts config)) "" /\
  GetAllHostAddresses info =
    List.map fst (leaf_hosts (VMap (Config.Hosts config)) "") /\
  Forall (fun h => (Host.Connection h < length (heap s'))%nat) (Hosts info) /\
  (forall p : ptr, (p < length (heap s))%nat -> heap s' !! p = heap s !! p).
Proof.
  intros Hrun.
  apply GetDashboardInfoConfig_Ok_inv in Hrun
    as (hosts & s2 & metrics & Hhosts & _ & Hheap & Hpoll & ->).
  cbn [Title PollInterval Hosts]. rewrite Hheap.
  assert (Hcur : (length (heap s) <
                  length (heap (mkState (heap s ++ [Connection.zero]) (log s))))%nat)
    by (simpl; rewrite length_app; simpl; lia).
  assert (Hleaves :
    List.map (fun h => (Host.Address h, Host.Alias h)) hosts =
    leaf_hosts (VMap (Config.Hosts config)) "").
  { pose proof (parseNode_Ok_wf _ _ _ _ _ _ _ Hhosts) as Hwf.
    destruct (parseConfig_ok "root" "" (Config.Hosts config) (length (heap s))
                (mkState (heap s ++ [Connection.zero]) (log s)) Connection.zero Hwf)
      as (hosts2 & s3 & Hrun2 & _ & _ & Hl & _).
    { simpl. rewrite lookup_app_r by lia. now rewrite Nat.sub_diag. }
    rewrite Hhosts in Hrun2. now injection Hrun2 as <- <-. }
  destruct (parseNode_tracks _ _ _ _ _ _ _ [] Hhosts Hcur)
    as (Hlen & Hframe & Hplaced & _).
  split; [reflexivity|]. split.
  { destruct (String.eqb (Config.Title config) "") eqn:E; [discriminate|].
    now apply String.eqb_neq. }
  split; [reflexivity|]. split; [assumption|]. split; [assumption|]. split.
  { rewrite <- Hleaves, GetAllHostAddresses_map, List.map_map. reflexivity. }
  split.
  { eapply placed_live; [exact Hcur| |exact Hplaced]. lia. }
  intros p Hp. rewrite Hframe; simpl.
  - now rewrite lookup_app_l.
  - rewrite length_app. simpl. lia.
  - lia.
Qed.

(** [GetDashboardInfoConfig] returns exactly when the hosts tree is well
    formed, every configured metric name is valid and the poll interval is at
    least 5. *)
Theorem GetDashboardInfoConfig_returns_iff config s :
  (exists info s', GetDashboardInfoConfig config s = Ok info s') <->
  well_formed (VMap (Config.Hosts config)) = true /\
  (forall m cmd, In (m, cmd) (Config.Metrics config) -> inspector_Valid m = true) /\
  5 <= Config.PollInterval config.
Proof.
  split.
  - intros (info & s' & Hrun).
    apply GetDashboardInfoConfig_Ok_inv in Hrun
      as (hosts & s2 & metrics & Hhosts & Hm & _ & Hpoll & _).
    split; [eapply parseNode_Ok_wf; exact Hhosts|]. split; [|assumption].
    now apply range_metrics_Ok in Hm as (_ & Hvalid & _).
  - intros (Hwf & Hvalid & Hpoll). unfold GetDashboardInfoConfig.
    unfold bind at 1. unfold alloc at 1.
    destruct (parseConfig_ok "root" "" (Config.Hosts config) (length (heap s))
                (mkState (heap s ++ [Connection.zero]) (log s)) Connection.zero Hwf)
      as (hosts & s2 & Hrun & _).
    { simpl. rewrite lookup_app_r by lia. now rewrite Nat.sub_diag. }
    rewrite (bind_Ok _ _ _ _ _ Hrun).
    destruct (range_metrics_valid (Config.Metrics config) ∅ s2 Hvalid)
      as [metrics Hm].
    rewrite (bind_Ok _ _ _ _ _ Hm).
    destruct (range_debug_run hosts s2) as [l Hd].
    rewrite (bind_Ok _ _ _ _ _ Hd).
    apply Z.ltb_ge in Hpoll. rewrite Hpoll. simpl.
    unfold bind, ret. eauto.
Qed.

(** A hosts section without a [children] entry makes the root itself the
    one host of the dashboard, with the empty address. *)
Theorem GetDashboardInfoConfig_root_host config s info s' :
  map_get "children" (Config.Hosts config) = None ->
  GetDashboardInfoConfig config s = Ok info s' ->
  exists h,
    Hosts info = [h] /\
    Host.Address h = "" /\
    Host.Alias h = alias_or_empty (Config.Hosts config).
Proof.
  intros Hleaf Hrun.
  apply GetDashboardInfoConfig_Ok_inv in Hrun
    as (hosts & s2 & metrics & Hhosts & _ & _ & _ & ->).
  simpl. rewrite parseConfig_eq, Hleaf in Hhosts.
  apply bind_Ok_inv in Hhosts as (cc & s1 & _ & Hhosts).
  apply leaf_host_Ok_inv in Hhosts as (c0 & _ & _ & ->).
  eexists. split; [reflexivity|]. auto.
Qed.

Lemma range_metrics_perm entries entries' acc s m :
  List.NoDup (List.map fst entries) ->
  Permutation entries entries' ->
  range_metrics entries acc s = Ok m s ->
  range_metrics entries' acc s = Ok m s.
Proof.
  intros Hnd Hperm Hrun.
  apply range_metrics_Ok in Hrun as (_ & Hvalid & Hkept & Hrest).
  specialize (Hkept Hnd).
  assert (Hnd' : List.NoDup (List.map fst entries'))
    by (eapply Permutation.Permutation_NoDup; [|exact Hnd];
        now apply Permutation_map).
  destruct (range_metrics_valid entries' acc s) as [m' Hrun'].
  { intros k cmd Hin. apply (Hvalid k cmd).
    eapply Permutation_in; [symmetry|]; eassumption. }
  rewrite Hrun'. f_equal.
  apply range_metrics_Ok in Hrun' as (_ & _ & Hkept' & Hrest').
  specialize (Hkept' Hnd').
  apply map_eq. intros k.
  destruct (in_dec string_dec k (List.map fst entries)) as [Hin|Hout].
  - apply in_map_iff in Hin as ([k' cmd] & <- & Hin). simpl.
    rewrite (Hkept _ _ Hin). apply Hkept'.
    eapply Permutation_in; eassumption.
  - rewrite (Hrest _ Hout). apply Hrest'.
    intros Hin. apply Hout.
    eapply Permutation_in; [symmetry; apply Permutation_map|]; eassumption.
Qed.

(** The order in which the metrics of a configuration are enumerated does
    not show: if [GetDashboardInfoConfig] returns, it returns the same
    dashboard, in the same state, for every other enumeration of the
    metrics. *)
Theorem GetDashboardInfoConfig_metrics_order config metrics' s info s' :
  List.NoDup (List.map fst (Config.Metrics config)) ->
  Permutation (Config.Metrics config) metrics' ->
  GetDashboardInfoConfig config s = Ok info s' ->
  GetDashboardInfoConfig
    (Config.mk (Config.Hosts config) metrics' (Config.Title config)
               (Config.PollInterval config)) s = Ok info s'.
Proof.
  intros Hnd Hperm Hrun. unfold GetDashboardInfoConfig in *.
  cbn [Config.Hosts Config.Metrics Config.Title Config.PollInterval].
  apply bind_Ok_inv in Hrun as (root & s1 & Halloc & Hrun).
  rewrite (bind_Ok _ _ _ _ _ Halloc).
  apply bind_Ok_inv in Hrun as (hosts & s2 & Hhosts & Hrun).
  rewrite (bind_Ok _ _ _ _ _ Hhosts).
  apply bind_Ok_inv in Hrun as (metrics & s3 & Hm & Hrun).
  pose proof (range_metrics_Ok _ _ _ _ _ Hm) as (-> & _).
  rewrite (bind_Ok _ _ _ _ _ (range_metrics_perm _ _ _ _ _ Hnd Hperm Hm)).
  exact Hrun.
Qed.

(** ** Drivers *)

Lemma settings_fields c n :
  settings c = settings n ->
  Connection.Type_ c = Connection.Type_ n /\
  Connection.Username c = Connection.Username n /\
  Connection.Password c = Connection.Password n /\
  Connection.PrivateKeyPath c = Connection.PrivateKeyPath n /\
  Connection.PrivateKeyPassPhrase c = Connection.PrivateKeyPassPhrase n /\
  Connection.Port c = Connection.Port n.
Proof.
  unfold settings, Connection.set_Host. intros [= -> -> -> -> -> ->].
  repeat split.
Qed.

(** On a well-formed tree, the driver of every host follows the nearest
    connection declared on its path (the root's if none is): local unless
    that connection's type is ssh, and otherwise an SSH driver with that
    connection's user, port, key and password, bound to the [Host] of the
    host's cell, and with known-hosts checking off. *)
Theorem parseConfig_drivers name host group (cur : ptr) s root :
  well_formed (VMap group) = true ->
  heap s !! cur = Some root ->
  exists hosts s',
    parseConfig name host group cur s = Ok hosts s' /\
    Forall2
      (fun h leaf =>
         Host.Address h = fst leaf /\
         exists c,
           heap s' !! Host.Connection h = Some c /\
           let n := nearest root (snd leaf) in
           ToDriver c =
             if String.eqb (Connection.Type_ n) "ssh"
             then driver.SSH (driver.mkSSH
                    (Connection.Username n) (Connection.Host c)
                    (Connection.Port n) (Connection.PrivateKeyPath n)
                    (Connection.PrivateKeyPassPhrase n)
                    (Connection.Password n) false)
             else driver.Local)
      hosts (ancestry (VMap group) host []).
Proof.
  intros Hwf Hroot.
  destruct (parseNode_ok (VMap group) name host cur s root [] Hwf)
    as (hosts & s' & Hrun & _ & _ & _ & Hbound).
  { now rewrite Hroot. }
  exists hosts, s'. split; [exact Hrun|].
  eapply Forall2_impl; [exact Hbound|].
  intros h leaf [Ha Hset]. split; [assumption|].
  destruct (heap s' !! Host.Connection h) as [c|]; [|discriminate].
  simpl in Hset. apply (inj Some) in Hset. exists c. split; [reflexivity|].
  apply settings_fields in Hset as (Hty & Hu & Hpw & Hk & Hpp & Hport).
  unfold ToDriver. simpl. now rewrite Hty, Hu, Hpw, Hk, Hpp, Hport.
Qed.

(** The driver of a connection that [parseConnection] returns: local
    unless the decoded type is ssh, and otherwise an SSH driver whose port is
    never 0 (22 when none was given), with the decoded user, key and
    password, and with known-hosts checking off. *)
Theorem parseConnection_driver conn s (p : ptr) s' :
  parseConnection conn s = Ok p s' ->
  exists c,
    heap s' !! p = Some c /\
    let d := mapstructure_Decode conn in
    ToDriver c =
      if String.eqb (Connection.Type_ d) "ssh"
      then driver.SSH (driver.mkSSH
             (Connection.Username d) (Connection.Host d)
             (if Connection.Port d =? 0 then 22 else Connection.Port d)
             (Connection.PrivateKeyPath d) (Connection.PrivateKeyPassPhrase d)
             (Connection.Password d) false)
      else driver.Local.
Proof.
  unfold parseConnection, fatal, alloc. intros Hrun.
  destruct (both_logins _); [discriminate|]. injection Hrun as <- <-.
  eexists. split.
  - simpl. rewrite lookup_app_r by lia. now rewrite Nat.sub_diag.
  - unfold ToDriver, default_port. simpl.
    destruct (String.eqb (Connection.Type_ (mapstructure_Decode conn)) "ssh") eqn:Ety;
      destruct (Connection.Port (mapstructure_Decode conn) =? 0) eqn:Eport;
      simpl; rewrite ?Ety; reflexivity.
Qed.

End LoaderMore.

(** * Enumeration order and the poll interval *)

Section LoaderOrder.
Context `{Collaborators}.

Lemma inventory_eq v host above :
  inventory v host above =
  match map_get "children" (map_or_nil v) with
  | Some (VMap cs) =>
      List.flat_map
        (fun '(k, c) => inventory c k (declared (map_or_nil v) :: above)) cs
  | Some _ => []
  | None =>
      [(host, alias_or_empty (map_or_nil v), declared (map_or_nil v) :: above)]
  end.
Proof.
  destruct v; try reflexivity. simpl. rewrite with_children_get.
  destruct (map_get "children" entries) as [[]|]; reflexivity.
Qed.

Lemma inventory_leaf_hosts v : forall host above,
  List.map (fun '(a, al, _) => (a, al)) (inventory v host above) =
  leaf_hosts v host.
Proof.
  induction v as [v IH] using node_ind. intros host above.
  rewrite inventory_eq, leaf_hosts_eq.
  destruct (map_get "children" (map_or_nil v)) as [[| | | | |cs]|];
    try reflexivity.
  specialize (IH cs eq_refl).
  induction cs as [|[k c] cs IHcs]; simpl; [reflexivity|].
  rewrite List.map_app, (IH k c) by now left.
  f_equal. apply IHcs. intros k' c' Hin. apply (IH k' c'). now right.
Qed.

Lemma inventory_ancestry v : forall host above,
  List.map (fun '(a, _, path) => (a, path)) (inventory v host above) =
  ancestry v host above.
Proof.
  induction v as [v IH] using node_ind. intros host above.
  rewrite inventory_eq, ancestry_eq.
  destruct (map_get "children" (map_or_nil v)) as [[| | | | |cs]|];
    try reflexivity.
  specialize (IH cs eq_refl).
  induction cs as [|[k c] cs IHcs]; simpl; [reflexivity|].
  rewrite List.map_app, (IH k c) by now left.
  f_equal. apply IHcs. intros k' c' Hin. apply (IH k' c'). now right.
Qed.

Lemma shown_inventory s root hosts :
  forall inv : list (string * string * list (option Connection.t)),
  List.map (fun h => (Host.Address h, Host.Alias h)) hosts =
    List.map (fun '(a, al, _) => (a, al)) inv ->
  Forall2 (bound_to s root) hosts
    (List.map (fun '(a, _, path) => (a, path)) inv) ->
  List.map (shown_host s) hosts =
  List.map
    (fun '(a, al, path) => (a, al, Some (settings (nearest root path)))) inv.
Proof.
  induction hosts as [|h hosts IH]; intros [|[[a al] path] inv] Hleaves Hbound;
    try discriminate; [reflexivity|].
  simpl in Hleaves, Hbound. injection Hleaves as Ha Hal Hleaves.
  apply Forall2_cons_1 in Hbound as [[_ Hset] Hbound]. simpl in Hset.
  simpl. f_equal; [|now apply IH].
  unfold shown_host. now rewrite Ha, Hal, Hset.
Qed.

Lemma parseConfig_shown name host group (cur : ptr) s root :
  well_formed (VMap group) = true ->
  heap s !! cur = Some root ->
  exists hosts s',
    parseConfig name host group cur s = Ok hosts s' /\
    List.map (fun h => (Host.Address h, Host.Alias h)) hosts =
      leaf_hosts (VMap group) host /\
    List.map (shown_host s') hosts =
      List.map
        (fun '(a, al, path) => (a, al, Some (settings (nearest root path))))
        (inventory (VMap group) host []).
Proof.
  intros Hwf Hroot.
  destruct (parseNode_ok (VMap group) name host cur s root [] Hwf)
    as (hosts & s' & Hrun & _ & _ & Hleaves & Hbound).
  { now rewrite Hroot. }
  exists hosts, s'. split; [exact Hrun|]. split; [exact Hleaves|].
  apply shown_inventory.
  - now rewrite inventory_leaf_hosts.
  - now rewrite inventory_ancestry.
Qed.

(** Reordering permutes the inventory. *)
Lemma reorder_inventory :
  (forall v v', reorder v v' ->
     forall host above,
       Permutation (inventory v host above) (inventory v' host above)) /\
  (forall g g', reorder_fields g g' ->
     (forall key, key <> "children" -> map_get key g = map_get key g') /\
     (map_get "children" g = map_get "children" g' \/
      exists cs cs',
        map_get "children" g = Some (VMap cs) /\
        map_get "children" g' = Some (VMap cs') /\
        forall above,
          Permutation (List.flat_map (fun '(k, c) => inventory c k above) cs)
                      (List.flat_map (fun '(k, c) => inventory c k above) cs'))) /\
  (forall cs cs', reorder_children cs cs' ->
     forall above,
       Permutation (List.flat_map (fun '(k, c) => inventory c k above) cs)
                   (List.flat_map (fun '(k, c) => inventory c k above) cs')).
Proof.
  apply reorder_mutind.
  - reflexivity.
  - intros g g' _ [Hsame Hkids] host above.
    destruct (declared_same_fields g g' Hsame) as (Hd & _ & Hae).
    rewrite (inventory_eq (VMap g)), (inventory_eq (VMap g')). simpl.
    rewrite Hd, Hae.
    destruct Hkids as [->|(cs & cs' & -> & -> & Hperm)];
      [reflexivity|apply Hperm].
  - split; [reflexivity|]. now left.
  - intros cs cs' rest _ Hperm. split.
    + intros key Hkey. rewrite !map_get_cons.
      destruct (String.eqb "children" key) eqn:E; [|reflexivity].
      apply String.eqb_eq in E. congruence.
    + right. exists cs, cs'. rewrite !map_get_cons, String.eqb_refl. auto.
  - intros k v rest rest' Hk _ [Hsame Hkids].
    apply String.eqb_neq in Hk. split.
    + intros key Hkey. rewrite !map_get_cons. destruct (String.eqb k key); auto.
    + rewrite !map_get_cons. now rewrite Hk.
  - reflexivity.
  - intros k c c' cs cs' _ Hperm _ Hperms above. simpl.
    apply Permutation_app; auto.
  - intros [kx x] [ky y] cs above. simpl.
    rewrite !app_assoc. apply Permutation_app_tail, Permutation_app_comm.
  - intros cs1 cs2 cs3 _ Hp12 _ Hp23 above.
    eapply Permutation_trans; [apply Hp12|apply Hp23].
Qed.

(** C3, as the loader has it: on a well-formed tree, the connection of every
    host has, in the final heap, the settings (every field but [Host]) of the
    nearest connection declared on the path from the leaf up to the root, or
    those of the connection the root was called with; a leaf that declares a
    connection of its own has exactly that connection, with [Host] its own
    key; and replacing one child subtree of a node by another leaves the
    settings that its sibling subtrees resolve to as they were. *)
Theorem parseConfig_nearest_connection name host (cur : ptr) s root :
  (forall group,
      well_formed (VMap group) = true ->
      heap s !! cur = Some root ->
      exists hosts s',
        parseConfig name host group cur s = Ok hosts s' /\
        List.map (resolved s') hosts =
          List.map (fun '(a, path) => (a, Some (settings (nearest root path))))
            (ancestry (VMap group) host [])) /\
  (forall group hosts s' (i : nat) h a c path,
      heap s !! cur = Some root ->
      parseConfig name host group cur s = Ok hosts s' ->
      hosts !! i = Some h ->
      ancestry (VMap group) host [] !! i = Some (a, Some c :: path) ->
      whole s' h = (a, Some (Connection.set_Host a c))) /\
  (forall group group' before k c c' after,
      map_get "children" group = Some (VMap (before ++ (k, c) :: after)) ->
      map_get "children" group' = Some (VMap (before ++ (k, c') :: after)) ->
      declared group = declared group' ->
      well_formed (VMap group) = true ->
      well_formed (VMap group') = true ->
      heap s !! cur = Some root ->
      exists hb hk ha s1 hb' hk' ha' s2,
        parseConfig name host group cur s = Ok (hb ++ hk ++ ha) s1 /\
        parseConfig name host group' cur s = Ok (hb' ++ hk' ++ ha') s2 /\
        length hk = leaf_count c /\
        length hk' = leaf_count c' /\
        List.map (resolved s1) hb = List.map (resolved s2) hb' /\
        List.map (resolved s1) ha = List.map (resolved s2) ha').
Proof.
  split; [|split].
  - intros group Hwf Hcur.
    destruct (parseConfig_ok name host group cur s root Hwf Hcur)
      as (hosts & s' & Hrun & _ & _ & _ & Hres).
    eauto.
  - intros group hosts s' i h a c path Hcur Hrun Hi Hleaf.
    apply lookup_lt_Some in Hcur.
    destruct (parseNode_tracks (VMap group) name host cur s hosts s' [] Hrun Hcur)
      as (_ & _ & Hplaced & _).
    destruct (Forall2_lookup_lr _ _ _ _ _ _ Hplaced Hi Hleaf)
      as (Ha & _ & _ & Hcell).
    simpl in Ha, Hcell. unfold whole. now rewrite Hcell, Ha.
  - intros group group' before k c c' after Hg Hg' Hdecl Hwf Hwf' Hcur.
    destruct (parseConfig_ok name host group cur s root Hwf Hcur)
      as (hosts & s1 & Hrun & _ & _ & Hleaves & Hres).
    destruct (parseConfig_ok name host group' cur s root Hwf' Hcur)
      as (hosts' & s2 & Hrun' & _ & _ & Hleaves' & Hres').
    rewrite ancestry_eq in Hres, Hres'. rewrite leaf_hosts_eq in Hleaves, Hleaves'.
    simpl in Hres, Hres', Hleaves, Hleaves'.
    rewrite Hg in Hres, Hleaves. rewrite Hg' in Hres', Hleaves'.
    rewrite <- Hdecl in Hres'.
    rewrite flat_map_app, List.map_app in Hres, Hres'. simpl in Hres, Hres'.
    rewrite List.map_app in Hres, Hres'.
    apply map_eq_app in Hres as (hb & hka & -> & Hb & Hka).
    apply map_eq_app in Hka as (hk & ha & -> & Hk & Ha).
    apply map_eq_app in Hres' as (hb' & hka' & -> & Hb' & Hka').
    apply map_eq_app in Hka' as (hk' & ha' & -> & Hk' & Ha').
    exists hb, hk, ha, s1, hb', hk', ha', s2.
    split; [assumption|]. split; [assumption|].
    split; [|split; [|split]].
    + apply (f_equal (@length _)) in Hk. rewrite !length_map in Hk.
      now rewrite Hk, ancestry_length.
    + apply (f_equal (@length _)) in Hk'. rewrite !length_map in Hk'.
      now rewrite Hk', ancestry_length.
    + congruence.
    + congruence.
Qed.

(** C4, as the loader has it: the hosts come in tree-traversal order, the
    children of a node in the order in which the run enumerates them.  Two
    runs over one document that enumerate its children in different orders
    both return or both fail; each returns the leaves in the order of its own
    enumeration, and the hosts they return are the same hosts up to that
    order: the same addresses, aliases and connection settings. *)
Theorem parseConfig_reordered name host group group' (cur : ptr) s :
  reorder (VMap group) (VMap group') ->
  (cur < length (heap s))%nat ->
  ((exists hosts s1, parseConfig name host group cur s = Ok hosts s1) <->
   (exists hosts' s1', parseConfig name host group' cur s = Ok hosts' s1')) /\
  forall hosts s1,
    parseConfig name host group cur s = Ok hosts s1 ->
    List.map (fun h => (Host.Address h, Host.Alias h)) hosts =
      leaf_hosts (VMap group) host /\
    exists hosts' s1',
      parseConfig name host group' cur s = Ok hosts' s1' /\
      List.map (fun h => (Host.Address h, Host.Alias h)) hosts' =
        leaf_hosts (VMap group') host /\
      Permutation (List.map (shown_host s1) hosts)
                  (List.map (shown_host s1') hosts').
Proof.
  intros Hre Hcur. apply lookup_lt_is_Some in Hcur as [root Hroot].
  destruct (proj1 reorder_leaves _ _ Hre) as [Hwf _].
  split.
  - split; intros (hs & s1 & Hrun);
      pose proof (parseNode_Ok_wf _ _ _ _ _ _ _ Hrun) as Hok.
    + rewrite Hwf in Hok.
      destruct (parseConfig_shown name host group' cur s root Hok Hroot)
        as (hosts' & s1' & Hrun' & _). eauto.
    + rewrite <- Hwf in Hok.
      destruct (parseConfig_shown name host group cur s root Hok Hroot)
        as (hosts' & s1' & Hrun' & _). eauto.
  - intros hosts s1 Hrun.
    pose proof (parseNode_Ok_wf _ _ _ _ _ _ _ Hrun) as Hok.
    destruct (parseConfig_shown name host group cur s root Hok Hroot)
      as (hs & s2 & Hrun2 & Hleaves & Hshown).
    rewrite Hrun in Hrun2. injection Hrun2 as <- <-.
    rewrite Hwf in Hok.
    destruct (parseConfig_shown name host group' cur s root Hok Hroot)
      as (hosts' & s1' & Hrun' & Hleaves' & Hshown').
    split; [exact Hleaves|]. exists hosts', s1'.
    split; [exact Hrun'|]. split; [exact Hleaves'|].
    rewrite Hshown, Hshown'. apply Permutation_map.
    apply (proj1 reorder_inventory _ _ Hre).
Qed.

Lemma range_debug_exact hosts : forall s,
  range_debug hosts s =
  Ok tt (mkState (heap s) (log s ++ debug_lines s hosts)).
Proof.
  induction hosts as [|h hosts IH]; intros s; simpl.
  - unfold ret, debug_lines. simpl. rewrite app_nil_r. now destruct s.
  - unfold bind, peek, logf. simpl. rewrite IH. simpl.
    unfold debug_lines. simpl. now rewrite <- app_assoc.
Qed.

(** C5, as the loader has it: with a poll interval below 5 the loader never
    returns a dashboard, and the interval is the last thing it checks.  When
    the hosts tree is well formed and every metric name valid, the process
    ends with the poll-interval error in the state that the complete
    resolution of the hosts and the log of every host leave; when the tree is
    well formed and a metric name is not valid, it ends before that with the
    invalid-metric error, in the state the resolution of the hosts left; and
    when the tree is not well formed, it ends as the resolution of the hosts
    ends, with the resolver's fatal error or panic. *)
Theorem GetDashboardInfoConfig_poll_interval config s :
  Config.PollInterval config < 5 ->
  let resolution :=
    parseConfig "root" "" (Config.Hosts config) (length (heap s))
      (mkState (heap s ++ [Connection.zero]) (log s)) in
  (forall info s', GetDashboardInfoConfig config s <> Ok info s') /\
  (well_formed (VMap (Config.Hosts config)) = true ->
   (forall m cmd, In (m, cmd) (Config.Metrics config) -> inspector_Valid m = true) ->
   exists hosts s2,
     resolution = Ok hosts s2 /\
     List.map (fun h => (Host.Address h, Host.Alias h)) hosts =
       leaf_hosts (VMap (Config.Hosts config)) "" /\
     GetDashboardInfoConfig config s =
       Fatal poll_interval_msg
         (mkState (heap s2) (log s2 ++ debug_lines s2 hosts))) /\
  (well_formed (VMap (Config.Hosts config)) = true ->
   forall m cmd, In (m, cmd) (Config.Metrics config) ->
     inspector_Valid m = false ->
     exists hosts s2 m',
       resolution = Ok hosts s2 /\
       GetDashboardInfoConfig config s = Fatal (invalid_metric_msg m') s2 /\
       inspector_Valid m' = false /\
       In m' (List.map fst (Config.Metrics config))) /\
  (well_formed (VMap (Config.Hosts config)) = false ->
   (exists msg s2,
       resolution = Fatal msg s2 /\
       GetDashboardInfoConfig config s = Fatal msg s2 /\
       (msg = both_logins_msg \/ exists name, msg = children_msg name)) \/
   (exists s2,
       resolution = Panic alias_panic_msg s2 /\
       GetDashboardInfoConfig config s = Panic alias_panic_msg s2)).
Proof.
  intros Hpoll resolution. apply Z.ltb_lt in Hpoll.
  assert (Hrun : GetDashboardInfoConfig config s =
    (do hosts <- (fun s1 => resolution) ;
     do metrics <- range_metrics (Config.Metrics config) ∅ ;
     range_debug hosts ;;
     when (Config.PollInterval config <? 5) (fatal poll_interval_msg) ;;
     ret (mkDashboardInfo hosts metrics
            (if String.eqb (Config.Title config) ""
             then "Saido" else Config.Title config)
            (Config.PollInterval config))) s) by reflexivity.
  assert (Hlive : (length (heap s) <
                   length (heap (mkState (heap s ++ [Connection.zero]) (log s))))%nat)
    by (simpl; rewrite length_app; simpl; lia).
  assert (Hroot : heap (mkState (heap s ++ [Connection.zero]) (log s))
                    !! length (heap s) = Some Connection.zero)
    by (simpl; rewrite lookup_app_r by lia; now rewrite Nat.sub_diag).
  split; [|split; [|split]].
  - intros info s' Hok. rewrite Hrun in Hok.
    apply bind_Ok_inv in Hok as (hosts & s2 & _ & Hok).
    apply bind_Ok_inv in Hok as (metrics & s3 & _ & Hok).
    apply bind_Ok_inv in Hok as (? & s4 & _ & Hok).
    apply bind_Ok_inv in Hok as (? & s5 & Hwhen & _).
    rewrite Hpoll in Hwhen. discriminate.
  - intros Hwf Hvalid.
    destruct (parseConfig_shown "root" "" (Config.Hosts config) _ _ _ Hwf Hroot)
      as (hosts & s2 & Hres & Hleaves & _).
    exists hosts, s2. split; [exact Hres|]. split; [exact Hleaves|].
    rewrite Hrun. unfold bind at 1. fold resolution in Hres. rewrite Hres.
    destruct (range_metrics_valid (Config.Metrics config) ∅ s2 Hvalid)
      as [metrics Hm].
    rewrite (bind_Ok _ _ _ _ _ Hm).
    rewrite (bind_Ok _ _ _ _ _ (range_debug_exact hosts s2)).
    rewrite Hpoll. reflexivity.
  - intros Hwf m cmd Hin Hbad.
    destruct (parseConfig_shown "root" "" (Config.Hosts config) _ _ _ Hwf Hroot)
      as (hosts & s2 & Hres & _).
    destruct (range_metrics_invalid (Config.Metrics config) ∅ s2 m cmd Hin Hbad)
      as (m' & Hm & Hbad' & Hin').
    exists hosts, s2, m'. split; [exact Hres|].
    split; [|split; assumption].
    rewrite Hrun. unfold bind at 1. fold resolution in Hres. rewrite Hres.
    now rewrite (bind_Fatal _ _ _ _ _ Hm).
  - intros Hwf.
    pose proof (parseNode_end (VMap (Config.Hosts config)) "root" ""
                  (length (heap s)) _ Hlive) as Hend.
    change (expected_end resolution) in Hend.
    rewrite Hrun. unfold bind at 1.
    destruct resolution as [hosts s2|msg s2|msg s2] eqn:Hres.
    + apply parseNode_Ok_wf in Hres. congruence.
    + left. exists msg, s2. auto.
    + right. exists s2. simpl in Hend. subst msg. auto.
Qed.

End LoaderOrder.

(** * The dashboard's rotations *)

Lemma rotate_Some {A} (inputs : list A) (step : nat) :
  (step <= length inputs)%nat ->
  charts.rotate inputs (Z.of_nat step) =
  Some (drop step inputs ++ take step inputs).
Proof.
  intros Hstep. unfold charts.rotate.
  replace ((0 <=? Z.of_nat step) && (Z.of_nat step <=? Z.of_nat (length inputs)))
    with true by (symmetry; apply andb_true_iff; split; apply Z.leb_le; lia).
  now rewrite Nat2Z.id.
Qed.

Lemma rotate_Some_inv {A} (inputs : list A) step r :
  charts.rotate inputs step = Some r ->
  exists n, step = Z.of_nat n /\ (n <= length inputs)%nat /\
            r = drop n inputs ++ take n inputs.
Proof.
  unfold charts.rotate.
  destruct ((0 <=? step) && (step <=? Z.of_nat (length inputs))) eqn:E;
    [|discriminate].
  apply andb_true_iff in E as [H0 Hlen]. apply Z.leb_le in H0, Hlen.
  intros [= <-]. exists (Z.to_nat step). repeat split; lia.
Qed.

Lemma rotate_lookup {A} (inputs : list A) (step i : nat) :
  (step <= length inputs)%nat -> (i < length inputs)%nat ->
  (drop step inputs ++ take step inputs) !! i =
  inputs !! ((i + step) mod length inputs)%nat.
Proof.
  intros Hstep Hi.
  destruct (decide (i < length inputs - step)%nat) as [Hlt|Hge].
  - rewrite lookup_app_l by (rewrite length_drop; lia).
    rewrite lookup_drop. f_equal.
    rewrite Nat.mod_small by lia. lia.
  - rewrite lookup_app_r by (rewrite length_drop; lia).
    rewrite length_drop, lookup_take_lt by lia.
    assert (Hmod : ((i + step) mod length inputs = i + step - length inputs)%nat).
    { replace (i + step)%nat
        with ((i + step - length inputs) + 1 * length inputs)%nat at 1 by lia.
      rewrite Nat.Div0.mod_add. apply Nat.mod_small. lia. }
    rewrite Hmod. f_equal. lia.
Qed.

Lemma rotate_length {A} (inputs : list A) (step : nat) :
  (step <= length inputs)%nat ->
  length (drop step inputs ++ take step inputs) = length inputs.
Proof.
  intros Hstep. rewrite length_app, length_drop, length_take. lia.
Qed.

Lemma rotate_rotate_nat {A} (inputs : list A) (a b : nat) :
  (a <= length inputs)%nat -> (b <= length inputs)%nat ->
  let r1 := drop a inputs ++ take a inputs in
  drop b r1 ++ take b r1 =
  drop ((a + b) mod length inputs) inputs ++
  take ((a + b) mod length inputs) inputs.
Proof.
  intros Ha Hb r1.
  destruct (decide (length inputs = 0)%nat) as [Hz|Hnz].
  { destruct inputs; [|discriminate]. subst r1. now destruct a, b. }
  assert (Hm : ((a + b) mod length inputs < length inputs)%nat)
    by now apply Nat.mod_upper_bound.
  assert (Hr1 : length r1 = length inputs) by now apply rotate_length.
  apply list_eq. intros i.
  destruct (decide (i < length inputs)%nat) as [Hi|Hi].
  - rewrite <- Hr1 at 1. rewrite rotate_lookup by lia.
    rewrite Hr1. subst r1.
    rewrite rotate_lookup by (try apply Nat.mod_upper_bound; lia).
    rewrite rotate_lookup by lia. f_equal.
    rewrite Nat.Div0.add_mod_idemp_l, Nat.Div0.add_mod_idemp_r. f_equal. lia.
  - rewrite !lookup_ge_None_2; [reflexivity| |].
    + rewrite rotate_length; lia.
    + rewrite rotate_length; lia.
Qed.

Lemma rem_negative x n :
  0 < n -> (Z.rem x n < 0 <-> x < 0 /\ Z.rem x n <> 0).
Proof.
  intros Hn. destruct (Z.neg_nonneg_cases x) as [Hneg|Hpos].
  - pose proof (Z.rem_bound_pos_neg x n Hn). lia.
  - pose proof (Z.rem_bound_pos x n Hpos Hn). lia.
Qed.

Lemma rotate_rem_None {A} (inputs : list A) x :
  inputs <> [] ->
  charts.rotate inputs (Z.rem x (Z.of_nat (length inputs))) = None <->
  x < 0 /\ Z.rem x (Z.of_nat (length inputs)) <> 0.
Proof.
  intros Hne.
  assert (Hn : 0 < Z.of_nat (length inputs)) by (destruct inputs; [easy|simpl; lia]).
  rewrite <- rem_negative by assumption.
  pose proof (Z.rem_bound_abs x _ (Z.neq_sym _ _ (Z.lt_neq _ _ Hn))) as Habs.
  unfold charts.rotate.
  destruct (0 <=? Z.rem x (Z.of_nat (length inputs))) eqn:E0; simpl.
  - apply Z.leb_le in E0.
    replace (Z.rem x (Z.of_nat (length inputs)) <=? Z.of_nat (length inputs))
      with true by (symmetry; apply Z.leb_le; lia).
    split; [discriminate|lia].
  - apply Z.leb_gt in E0. tauto.
Qed.

Lemma rotate_out_of_range_aux {A} (inputs : list A) (step : Z) :
  charts.rotate inputs step = None ->
  step < 0 \/ Z.of_nat (length inputs) < step.
Proof.
  unfold charts.rotate.
  destruct (0 <=? step) eqn:E0; destruct (step <=? Z.of_nat (length inputs)) eqn:E1;
    simpl; rewrite ?Z.leb_le, ?Z.leb_gt in *; try discriminate; lia.
Qed.

(** The rotation of a slice by [step], [0 <= step <= len(inputs)], returns a
    slice of the same length whose element [i] is element
    [(i + step) mod len] of the input, as the comment of [rotateRunes] and
    [rotateFloats] puts it for a step of one; it is a permutation of the
    input. *)
Theorem rotate_elements {A} (inputs : list A) (step : Z) :
  0 <= step <= Z.of_nat (length inputs) ->
  exists r,
    charts.rotate inputs step = Some r /\
    length r = length inputs /\
    Permutation inputs r /\
    forall i, (i < length inputs)%nat ->
      r !! i = inputs !! ((i + Z.to_nat step) mod length inputs)%nat.
Proof.
  intros Hstep. exists (drop (Z.to_nat step) inputs ++ take (Z.to_nat step) inputs).
  split; [|split; [|split]].
  - rewrite <- (Z2Nat.id step) at 1 by lia. apply rotate_Some. lia.
  - apply rotate_length. lia.
  - rewrite <- (take_drop (Z.to_nat step) inputs) at 1. apply Permutation_app_comm.
  - intros i Hi. apply rotate_lookup; lia.
Qed.

(** Rotating by [a] and then by [b] is rotating once by [(a + b) mod len]. *)
Theorem rotate_rotate {A} (inputs r1 r2 : list A) (a b : Z) :
  charts.rotate inputs a = Some r1 ->
  charts.rotate r1 b = Some r2 ->
  charts.rotate inputs ((a + b) mod Z.of_nat (length inputs)) = Some r2.
Proof.
  intros Ha Hb.
  apply rotate_Some_inv in Ha as (na & -> & Hna & ->).
  apply rotate_Some_inv in Hb as (nb & -> & Hnb & ->).
  rewrite rotate_length in Hnb by assumption.
  rewrite rotate_rotate_nat by assumption.
  destruct (decide (length inputs = 0)%nat) as [Hz|Hnz].
  - rewrite Hz. simpl. rewrite Z.mod_0_r.
    destruct inputs; [|discriminate]. simpl in *.
    replace na with 0%nat by lia. replace nb with 0%nat by lia. reflexivity.
  - rewrite <- Nat2Z.inj_add, <- Nat2Z.inj_mod. apply rotate_Some.
    apply Nat.lt_le_incl, Nat.mod_upper_bound. assumption.
Qed.

(** Rotating by [step] and then by [len - step] gives the slice back, and so
    does rotating by [0] or by [len]. *)
Theorem rotate_back {A} (inputs r : list A) (step : Z) :
  charts.rotate inputs step = Some r ->
  charts.rotate r (Z.of_nat (length inputs) - step) = Some inputs /\
  charts.rotate inputs 0 = Some inputs /\
  charts.rotate inputs (Z.of_nat (length inputs)) = Some inputs.
Proof.
  intros Hr. apply rotate_Some_inv in Hr as (n & -> & Hn & ->).
  assert (Hid : forall l : list A, drop (length l) l ++ take (length l) l = l)
    by (intros l; now rewrite drop_all, firstn_all).
  split; [|split].
  - rewrite <- Nat2Z.inj_sub by assumption.
    rewrite rotate_Some by (rewrite rotate_length; lia).
    rewrite rotate_rotate_nat by lia.
    replace (n + (length inputs - n))%nat with (length inputs) by lia.
    destruct (decide (length inputs = 0)%nat) as [Hz|Hnz].
    + destruct inputs; [reflexivity|discriminate].
    + rewrite Nat.Div0.mod_same. simpl. now rewrite app_nil_r.
  - change 0 with (Z.of_nat 0). rewrite rotate_Some by lia.
    simpl. now rewrite app_nil_r.
  - rewrite rotate_Some by lia. now rewrite Hid.
Qed.

(** With a positive capacity and a step that is not negative, [textState]
    returns the text behind [capacity] spaces, rotated by [step] modulo the
    length: a slice of [capacity + len(text)] runes, the padded text itself at
    step 0, and the same slice again one full length later. *)
Theorem textState_rotates (text : list charts.rune) (capacity step : Z) :
  0 < capacity -> 0 <= step ->
  let state := repeat 32 (Z.to_nat capacity) ++ text in
  exists r,
    charts.textState text capacity step = Some r /\
    Z.of_nat (length r) = capacity + Z.of_nat (length text) /\
    (forall i, (i < length state)%nat ->
       r !! i = state !! ((i + Z.to_nat step) mod length state)%nat) /\
    charts.textState text capacity 0 = Some state /\
    charts.textState text capacity (step + Z.of_nat (length state)) = Some r.
Proof.
  intros Hcap Hstep state. unfold charts.rune in *.
  assert (Hlen : Z.of_nat (length state) = capacity + Z.of_nat (length text)).
  { subst state. rewrite length_app, repeat_length, Nat2Z.inj_add.
    now rewrite Z2Nat.id by (apply Z.lt_le_incl, Hcap). }
  assert (Hpos : 0 < Z.of_nat (length state)) by lia.
  assert (Hunfold : forall x,
    charts.textState text capacity x =
    charts.rotate state (Z.rem x (Z.of_nat (length state)))).
  { intros x. unfold charts.textState, charts.rotateRunes. fold state.
    destruct (capacity =? 0) eqn:E; [apply Z.eqb_eq in E; lia|].
    destruct (Z.of_nat (length state) =? 0) eqn:E'; [apply Z.eqb_eq in E'; lia|].
    reflexivity. }
  pose proof (Z.rem_bound_pos step _ Hstep Hpos) as Hrem.
  set (m := Z.to_nat (Z.rem step (Z.of_nat (length state)))).
  assert (Hm : Z.rem step (Z.of_nat (length state)) = Z.of_nat m)
    by (subst m; rewrite Z2Nat.id; [reflexivity|apply Hrem]).
  exists (drop m state ++ take m state). split; [|split; [|split; [|split]]].
  - rewrite Hunfold, Hm. apply rotate_Some. lia.
  - rewrite rotate_length by lia. assumption.
  - intros i Hi. rewrite rotate_lookup by lia. f_equal.
    subst m. rewrite Z.rem_mod_nonneg by lia.
    rewrite <- (Z2Nat.id step) at 1 by lia.
    rewrite <- Nat2Z.inj_mod, Nat2Z.id.
    rewrite Nat.Div0.add_mod_idemp_r. reflexivity.
  - rewrite Hunfold. rewrite Z.rem_0_l by lia.
    change 0 with (Z.of_nat 0). rewrite rotate_Some by lia.
    simpl. now rewrite app_nil_r.
  - rewrite Hunfold.
    rewrite (Z.rem_mod_nonneg (step + _)) by lia.
    replace (step + Z.of_nat (length state))
      with (step + 1 * Z.of_nat (length state)) by lia.
    rewrite Z.mod_add by lia. rewrite <- Z.rem_mod_nonneg by lia.
    rewrite Hm. apply rotate_Some. lia.
Qed.

(** The edges of [textState]: capacity 0 returns the nil slice whatever the
    step; otherwise it panics exactly when there is nothing to rotate (a
    negative capacity and an empty text: division by zero) or when the step
    is negative and not a multiple of the length (slice bound out of
    range). *)
Theorem textState_panics (text : list charts.rune) (capacity step : Z) :
  charts.textState text 0 step = Some [] /\
  (capacity <> 0 ->
   let n := Z.of_nat (length (repeat 32 (Z.to_nat capacity) ++ text)) in
   charts.textState text capacity step = None <->
   n = 0 \/ (step < 0 /\ Z.rem step n <> 0)).
Proof.
  split; [reflexivity|]. intros Hcap n. unfold charts.rune in *.
  unfold charts.textState, charts.rotateRunes. fold n.
  apply Z.eqb_neq in Hcap. rewrite Hcap.
  destruct (n =? 0) eqn:En.
  - apply Z.eqb_eq in En. tauto.
  - apply Z.eqb_neq in En. subst n.
    rewrite rotate_rem_None by (intros Hnil; rewrite Hnil in En; now apply En).
    tauto.
Qed.

(** One tick of the line chart, from a step within the series: the first
    series always rotates and the step stays within the series; the second
    rotation panics exactly when the step plus the distance set by the
    buttons is negative and not a multiple of the length. *)
Theorem sines_steps_rotations {float64 : Type} (inputs : list float64)
    (step1 dist : Z) :
  inputs <> [] ->
  Z.of_nat (length inputs) < 2 ^ 62 ->
  0 <= step1 < Z.of_nat (length inputs) ->
  - 2 ^ 62 < dist < 2 ^ 62 ->
  let '(step1', step2) :=
    charts.sines_steps (Z.of_nat (length inputs)) step1 dist in
  0 <= step1' < Z.of_nat (length inputs) /\
  step1' = (step1 + 1) mod Z.of_nat (length inputs) /\
  is_Some (charts.rotateFloats inputs step1') /\
  (charts.rotateFloats inputs step2 = None <->
   step1' + dist < 0 /\ Z.rem (step1' + dist) (Z.of_nat (length inputs)) <> 0).
Proof.
  intros Hne Hlen Hstep Hdist. unfold charts.sines_steps, charts.rotateFloats.
  set (n := Z.of_nat (length inputs)) in *.
  assert (Hwrap : forall z, - 2 ^ 63 <= z < 2 ^ 63 -> charts.wrap64 z = z).
  { intros z Hz. unfold charts.wrap64. rewrite Z.mod_small; lia. }
  rewrite (Hwrap (step1 + 1)) by lia.
  pose proof (Z.rem_bound_pos (step1 + 1) n ltac:(lia) ltac:(lia)) as Hrem.
  rewrite (Hwrap (Z.rem (step1 + 1) n + dist)) by lia.
  split; [assumption|]. split; [apply Z.rem_mod_nonneg; lia|]. split.
  - destruct (charts.rotate inputs (Z.rem (step1 + 1) n)) eqn:E; [eauto|].
    apply rotate_out_of_range_aux in E. fold n in E. lia.
  - subst n. apply rotate_rem_None. assumption.
Qed.

(** * The further theorems at sample inputs *)

(** [run_as H m]: run [m] and name the equation between it and its value. *)
Ltac run_as H m :=
  let o := eval vm_compute in m in
  assert (H : m = o) by (vm_compute; reflexivity).

Lemma rotate_elements_witness :
  exists r,
    charts.rotate [10; 20; 30; 40] 1 = Some r /\
    length r = 4%nat /\
    Permutation [10; 20; 30; 40] r /\
    forall i, (i < 4)%nat ->
      r !! i = [10; 20; 30; 40] !! ((i + 1) mod 4)%nat.
Proof.
  apply (rotate_elements [10; 20; 30; 40] 1). simpl. lia.
Defined.

Lemma rotate_rotate_witness :
  charts.rotate [10; 20; 30; 40] ((3 + 2) mod 4) = Some [20; 30; 40; 10].
Proof.
  apply (rotate_rotate [10; 20; 30; 40] [40; 10; 20; 30] [20; 30; 40; 10] 3 2);
    reflexivity.
Defined.

Lemma rotate_back_witness :
  charts.rotate [40; 10; 20; 30] (4 - 3) = Some [10; 20; 30; 40] /\
  charts.rotate [10; 20; 30; 40] 0 = Some [10; 20; 30; 40] /\
  charts.rotate [10; 20; 30; 40] 4 = Some [10; 20; 30; 40].
Proof.
  apply (rotate_back [10; 20; 30; 40] [40; 10; 20; 30] 3). reflexivity.
Defined.

Lemma textState_rotates_witness :
  exists r,
    charts.textState [83; 97] 3 7 = Some r /\
    Z.of_nat (length r) = 3 + 2 /\
    (forall i, (i < 5)%nat ->
       r !! i = [32; 32; 32; 83; 97] !! ((i + 7) mod 5)%nat) /\
    charts.textState [83; 97] 3 0 = Some [32; 32; 32; 83; 97] /\
    charts.textState [83; 97] 3 (7 + 5) = Some r.
Proof.
  apply (textState_rotates [83; 97] 3 7); lia.
Defined.

Lemma textState_panics_witness :
  (charts.textState [] (-1) 0 = None <->
   0 = 0 \/ (0 < 0 /\ Z.rem 0 0 <> 0)) /\
  (charts.textState [83; 97] 3 (-1) = None <->
   5 = 0 \/ (-1 < 0 /\ Z.rem (-1) 5 <> 0)).
Proof.
  split.
  - apply (proj2 (textState_panics [] (-1) 0)). discriminate.
  - apply (proj2 (textState_panics [83; 97] 3 (-1))). discriminate.
Defined.

Lemma sines_steps_rotations_witness :
  let '(step1', step2) := charts.sines_steps 4 3 (-1) in
  0 <= step1' < 4 /\
  step1' = (3 + 1) mod 4 /\
  is_Some (charts.rotateFloats [10; 20; 30; 40] step1') /\
  (charts.rotateFloats [10; 20; 30; 40] step2 = None <->
   step1' + -1 < 0 /\ Z.rem (step1' + -1) 4 <> 0).
Proof.
  apply (sines_steps_rotations [10; 20; 30; 40] 3 (-1)).
  - discriminate.
  - simpl. lia.
  - simpl. lia.
  - lia.
Defined.

Lemma parseConfig_heap_witness :
  exists hosts s',
    parseConfig "root" "" ex_tree 0%nat state_root = Ok hosts s' /\
    length (heap s') = (1 + declared_count (VMap ex_tree))%nat /\
    Forall (fun h => (Host.Connection h < length (heap s'))%nat) hosts.
Proof.
  assert (Hcur : (0 < length (heap state_root))%nat) by (simpl; lia).
  run_as Hrun (parseConfig "root" "" ex_tree 0%nat state_root).
  destruct (parseConfig_heap "root" "" ex_tree 0%nat state_root _ _ Hrun Hcur)
    as (Hlen & _ & _ & Hlive).
  eexists _, _. split; [exact Hrun|]. split; [exact Hlen|exact Hlive].
Defined.

Lemma parseConfig_own_connection_witness :
  exists hosts s' h,
    parseConfig "root" "" ex_tree 0%nat state_root = Ok hosts s' /\
    hosts !! 0%nat = Some h /\
    Host.Address h = "web" /\
    heap s' !! Host.Connection h =
      Some (Connection.mk "ssh" "" "" "" "" 2222 "web") /\
    forall (j : nat) h', j <> 0%nat -> hosts !! j = Some h' ->
      Host.Connection h' <> Host.Connection h.
Proof.
  assert (Hcur : (0 < length (heap state_root))%nat) by (simpl; lia).
  run_as Hrun (parseConfig "root" "" ex_tree 0%nat state_root).
  destruct (parseConfig_own_connection "root" "" ex_tree 0%nat state_root
              _ _ 0%nat _ _ _ _ Hrun Hcur eq_refl eq_refl)
    as (Ha & Hcell & _ & Hexcl).
  eexists _, _, _. split; [exact Hrun|]. split; [reflexivity|].
  split; [exact Ha|]. split; [exact Hcell|exact Hexcl].
Defined.

Lemma parseConfig_returns_iff_witness :
  (exists hosts s', parseConfig "root" "" ex_tree 0%nat state_root = Ok hosts s') <->
  well_formed (VMap ex_tree) = true.
Proof.
  apply parseConfig_returns_iff. simpl. lia.
Defined.

Lemma parseConfig_ends_witness :
  match parseConfig "root" "" [("children", VNil)] 0%nat state_root with
  | Ok _ _ => well_formed (VMap [("children", VNil)]) = true
  | Fatal msg _ =>
      well_formed (VMap [("children", VNil)]) = false /\
      (msg = both_logins_msg \/ exists name', msg = children_msg name')
  | Panic msg _ =>
      well_formed (VMap [("children", VNil)]) = false /\ msg = alias_panic_msg
  end.
Proof.
  apply parseConfig_ends. simpl. lia.
Defined.

Lemma GetDashboardInfoConfig_returns_witness :
  exists info s',
    GetDashboardInfoConfig good_config state0 = Ok info s' /\
    Title info = "fleet" /\
    PollInterval info = 10 /\
    GetAllHostAddresses info = ["a"; "b"].
Proof.
  destruct (GetDashboardInfoConfig good_config state0) as [info s'| |] eqn:Hrun;
    [|vm_compute in Hrun; discriminate Hrun..].
  destruct (GetDashboardInfoConfig_returns good_config state0 info s' Hrun)
    as (Htitle & _ & Hpoll & _ & _ & Haddr & _).
  exists info, s'. split; [reflexivity|].
  split; [exact Htitle|]. split; [exact Hpoll|exact Haddr].
Defined.

Lemma GetDashboardInfoConfig_root_host_witness :
  exists info s' h,
    GetDashboardInfoConfig
      (Config.mk [("alias", VStr "here")] [] "" 5) state0 = Ok info s' /\
    Hosts info = [h] /\
    Host.Address h = "" /\
    Host.Alias h = "here".
Proof.
  destruct (GetDashboardInfoConfig
              (Config.mk [("alias", VStr "here")] [] "" 5) state0)
    as [info s'| |] eqn:Hrun;
    [|vm_compute in Hrun; discriminate Hrun..].
  destruct (GetDashboardInfoConfig_root_host
              (Config.mk [("alias", VStr "here")] [] "" 5) state0 info s'
              eq_refl Hrun)
    as (h & Hh & Ha & Hal).
  exists info, s', h. split; [reflexivity|].
  split; [exact Hh|]. split; [exact Ha|exact Hal].
Defined.

Lemma parseConfig_drivers_witness :
  exists hosts s',
    parseConfig "root" "" ex_tree 0%nat state_root = Ok hosts s' /\
    Forall2
      (fun h leaf =>
         Host.Address h = fst leaf /\
         exists c,
           heap s' !! Host.Connection h = Some c /\
           let n := nearest Connection.zero (snd leaf) in
           ToDriver c =
             if String.eqb (Connection.Type_ n) "ssh"
             then driver.SSH (driver.mkSSH
                    (Connection.Username n) (Connection.Host c)
                    (Connection.Port n) (Connection.PrivateKeyPath n)
                    (Connection.PrivateKeyPassPhrase n)
                    (Connection.Password n) false)
             else driver.Local)
      hosts (ancestry (VMap ex_tree) "" []).
Proof.
  apply (parseConfig_drivers "root" "" ex_tree 0%nat state_root Connection.zero);
    reflexivity.
Defined.

Lemma parseConnection_driver_witness :
  exists c,
    heap (mkState [default_port (plain_Decode ssh_no_port)] []) !! 0%nat = Some c /\
    ToDriver c =
      driver.SSH (driver.mkSSH "admin" "" 22 "" "" "" false).
Proof.
  exact (parseConnection_driver ssh_no_port state0 0%nat
           (mkState [default_port (plain_Decode ssh_no_port)] []) eq_refl).
Defined.

Lemma GetDashboardInfoConfig_metrics_order_witness :
  exists info s',
    GetDashboardInfoConfig good_config state0 = Ok info s' /\
    GetDashboardInfoConfig
      (Config.mk two_hosts [("disk", VStr "df -h"); ("memory", VNil)] "fleet" 10)
      state0 = Ok info s'.
Proof.
  destruct (GetDashboardInfoConfig good_config state0) as [info s'| |] eqn:Hrun;
    [|vm_compute in Hrun; discriminate Hrun..].
  exists info, s'. split; [reflexivity|].
  apply (GetDashboardInfoConfig_metrics_order good_config
           [("disk", VStr "df -h"); ("memory", VNil)] state0 info s').
  - simpl. constructor; [simpl; intuition discriminate|].
    constructor; [simpl; tauto|constructor].
  - apply perm_swap.
  - exact Hrun.
Defined.

Lemma parseConfig_reordered_witness :
  exists hosts s1 hosts' s1',
    parseConfig "root" "" two_hosts 0%nat state_root = Ok hosts s1 /\
    List.map (fun h => (Host.Address h, Host.Alias h)) hosts =
      [("a", ""); ("b", "")] /\
    parseConfig "root" "" two_hosts_swapped 0%nat state_root = Ok hosts' s1' /\
    List.map (fun h => (Host.Address h, Host.Alias h)) hosts' =
      [("b", ""); ("a", "")] /\
    Permutation (List.map (shown_host s1) hosts)
                (List.map (shown_host s1') hosts').
Proof.
  assert (Hcur : (0 < length (heap state_root))%nat) by (simpl; lia).
  run_as Hrun (parseConfig "root" "" two_hosts 0%nat state_root).
  destruct (parseConfig_reordered "root" "" two_hosts two_hosts_swapped 0%nat
              state_root two_hosts_reorder Hcur) as [_ Hsame].
  destruct (Hsame _ _ Hrun) as (Hleaves & hosts' & s1' & Hrun' & Hleaves' & Hperm).
  eexists _, _, hosts', s1'. split; [exact Hrun|]. split; [exact Hleaves|].
  split; [exact Hrun'|]. split; [exact Hleaves'|exact Hperm].
Defined.

Lemma GetDashboardInfoConfig_poll_interval_witness :
  Config.PollInterval low_interval < 5 /\
  (forall info s', GetDashboardInfoConfig low_interval state0 <> Ok info s') /\
  (exists hosts s2,
      parseConfig "root" "" two_hosts 0%nat state_root = Ok hosts s2 /\
      List.map (fun h => (Host.Address h, Host.Alias h)) hosts =
        [("a", ""); ("b", "")] /\
      GetDashboardInfoConfig low_interval state0 =
        Fatal poll_interval_msg
          (mkState (heap s2) (log s2 ++ debug_lines s2 hosts))) /\
  ((exists msg s2,
       GetDashboardInfoConfig low_interval_two_logins state0 = Fatal msg s2 /\
       (msg = both_logins_msg \/ exists name, msg = children_msg name)) \/
   (exists s2,
       GetDashboardInfoConfig low_interval_two_logins state0 =
         Panic alias_panic_msg s2)).
Proof.
  assert (Hpoll : Config.PollInterval low_interval < 5) by (simpl; lia).
  assert (Hpoll' : Config.PollInterval low_interval_two_logins < 5)
    by (simpl; lia).
  destruct (GetDashboardInfoConfig_poll_interval low_interval state0 Hpoll)
    as (Hnever & Hlast & _ & _).
  destruct (GetDashboardInfoConfig_poll_interval low_interval_two_logins state0
              Hpoll') as (_ & _ & _ & Hresolver).
  split; [exact Hpoll|]. split; [exact Hnever|]. split.
  - apply Hlast; [reflexivity|].
    simpl. intros m cmd [[= <- <-]|[]]. reflexivity.
  - destruct (Hresolver eq_refl)
      as [(msg & s2 & _ & Hrun & Hmsg)|(s2 & _ & Hrun)].
    + left. exists msg, s2. split; [exact Hrun|exact Hmsg].
    + right. exists s2. exact Hrun.
Defined.

Lemma parseConfig_nearest_connection_witness :
  (exists hosts s',
      parseConfig "root" "" ex_tree 0%nat state_root = Ok hosts s' /\
      List.map (resolved s') hosts =
        List.map
          (fun '(a, path) => (a, Some (settings (nearest Connection.zero path))))
          (ancestry (VMap ex_tree) "" [])) /\
  (exists hosts s' h,
      parseConfig "root" "" ex_tree 0%nat state_root = Ok hosts s' /\
      hosts !! 0%nat = Some h /\
      whole s' h = ("web", Some (Connection.mk "ssh" "" "" "" "" 2222 "web"))) /\
  (exists hb hk ha s1 hb' hk' ha' s2,
      parseConfig "root" "" ex_tree 0%nat state_root = Ok (hb ++ hk ++ ha) s1 /\
      parseConfig "root" "" ex_tree_db_ssh 0%nat state_root =
        Ok (hb' ++ hk' ++ ha') s2 /\
      length hk = leaf_count (VMap []) /\
      length hk' = leaf_count (VMap [("connection", VMap [("type", VStr "ssh")])]) /\
      List.map (resolved s1) hb = List.map (resolved s2) hb' /\
      List.map (resolved s1) ha = List.map (resolved s2) ha').
Proof.
  destruct (parseConfig_nearest_connection "root" "" 0%nat state_root Connection.zero)
    as (Hnearest & Hown & Hsiblings).
  split; [|split].
  - apply Hnearest; reflexivity.
  - run_as Hrun (parseConfig "root" "" ex_tree 0%nat state_root).
    eexists _, _, _. split; [exact Hrun|]. split; [reflexivity|].
    exact (Hown ex_tree _ _ 0%nat _ _ _ _ eq_refl Hrun eq_refl eq_refl).
  - apply (Hsiblings ex_tree ex_tree_db_ssh
             [("web", VMap [("connection",
                             VMap [("type", VStr "ssh"); ("port", VInt 2222)])])]
             "db" (VMap []) (VMap [("connection", VMap [("type", VStr "ssh")])])
             [("cache", VNil)]);
      reflexivity.
Defined.

